(** * Restaurant: groups, receptionist and waiter over shared memory and semaphores

    A shallow embedding of [semSharedMemGroup.c], [semSharedMemReceptionist.c]
    and [semSharedMemWaiter.c].  Every C function is a program of the small
    monad [prog]: a tree of the atomic actions the function performs on the
    semaphore set and on memory, in the order of the source.  Programs are
    run on a [world] by [exec]; what a function may do at all is read off its
    tree by [all_acts] and [disciplined]. *)

From stdpp Require Import base decidable option list list_numbers numbers relations.

Local Open Scope Z_scope.

(** ** Constants *)

(** [probConst.h] is not among the sources: its constants are parameters of
    the development. *)
Class ProbConst := {
  MAXGROUPS : Z;
  NUMTABLES : Z;
  (* request identifiers *)
  TABLEREQ : Z;
  BILLREQ : Z;
  FOODREQ : Z;
  FOODREADY : Z;
  (* group states *)
  ATRECEPTION : Z;
  FOOD_REQUEST : Z;
  WAIT_FOR_FOOD : Z;
  EAT : Z;
  CHECKOUT : Z;
  LEAVING : Z;
  (* waiter states *)
  WAIT_FOR_REQUEST : Z;
  INFORM_CHEF : Z;
  TAKE_TO_TABLE : Z;
  (* receptionist states *)
  ASSIGNTABLE : Z;
  RECVPAY : Z
}.

(** The [#define]s at the head of [semSharedMemGroup.c] and
    [semSharedMemReceptionist.c]. *)
Definition CHECKING_IN : Z := 0.
Definition AT_TABLE : Z := 1.
Definition WAITING : Z := 2.

(** Constants for [groupRecord] ([semSharedMemReceptionist.c]). *)
Definition TOARRIVE : Z := 0.
Definition WAIT : Z := 1.
Definition ATTABLE : Z := 2.
Definition DONE : Z := 3.

(** Largest value of a C [int]. *)
Definition INT_MAX : Z := 2147483647.

(** ** Data *)

Record request := mkRequest { reqType : Z; reqGroup : Z }.

Record STAT := mkSTAT {
  groupStat : list Z;
  receptionistStat : Z;
  waiterStat : Z;
  chefStat : Z
}.

(** [probDataStruct.h] is not among the sources: [STAT], [request] and
    [FULL_STAT] have the fields the three files use. *)
Record FULL_STAT := mkFULL_STAT {
  st : STAT;
  groupsWaiting : Z;
  foodGroup : Z;
  assignedTable : list Z;
  receptionistRequest : request;
  waiterRequest : request
}.

(** The semaphores named by the fields of [SHARED_DATA]
    ([sharedDataSync.h] is not among the sources); an element of a
    semaphore array keeps the index the source passes.  Where that index
    is a value read from [assignedTable], the code goes through
    [sh_foodArrived], which checks it. *)
Inductive sem :=
| mutex
| waitForTable (n : Z)
| foodArrived (tableId : Z)
| tableDone (n : Z)
| waiterRequestPossible
| waitOrder
| orderReceived.

Global Instance sem_eq_dec : EqDecision sem.
Proof. solve_decision. Defined.

(** What one process sees: the shared region, the values of the semaphore
    set, and the receptionist's own [groupRecord]. *)
Record world := mkWorld {
  fSt : FULL_STAT;
  semval : sem → nat;
  groupRecord : list Z
}.

(** The memory cells the code reads and writes, named by their C path. *)
Inductive lvalue :=
| LgroupStat (i : Z)                  (* sh->fSt.st.groupStat[i] *)
| LreceptionistStat                   (* sh->fSt.st.receptionistStat *)
| LwaiterStat                         (* sh->fSt.st.waiterStat *)
| LchefStat                           (* sh->fSt.st.chefStat *)
| LgroupsWaiting                      (* sh->fSt.groupsWaiting *)
| LfoodGroup                          (* sh->fSt.foodGroup *)
| LassignedTable (i : Z)              (* sh->fSt.assignedTable[i] *)
| LreceptionistRequest_reqType        (* sh->fSt.receptionistRequest.reqType *)
| LreceptionistRequest_reqGroup       (* sh->fSt.receptionistRequest.reqGroup *)
| LwaiterRequest_reqType              (* sh->fSt.waiterRequest.reqType *)
| LwaiterRequest_reqGroup             (* sh->fSt.waiterRequest.reqGroup *)
| LgroupRecord (i : Z).               (* groupRecord[i], static in the receptionist *)

Global Instance lvalue_eq_dec : EqDecision lvalue.
Proof. solve_decision. Defined.

(** Cells of the shared region (everything but the receptionist's array). *)
Definition shared (l : lvalue) : bool :=
  match l with LgroupRecord _ => false | _ => true end.

(** Array access with a C [int] index: outside the array there is no cell. *)
Definition idx (a : list Z) (i : Z) : option Z :=
  if decide (0 ≤ i) then a !! Z.to_nat i else None.

Definition upd (a : list Z) (i : Z) (v : Z) : option (list Z) :=
  if decide (0 ≤ i < Z.of_nat (length a)) then Some (<[Z.to_nat i := v]> a) else None.

(** Field updates. *)
Definition set_st (f : STAT → STAT) (s : FULL_STAT) : FULL_STAT :=
  mkFULL_STAT (f (st s)) (groupsWaiting s) (foodGroup s) (assignedTable s)
              (receptionistRequest s) (waiterRequest s).
Definition set_groupStat (a : list Z) (s : STAT) : STAT :=
  mkSTAT a (receptionistStat s) (waiterStat s) (chefStat s).
Definition set_receptionistStat (v : Z) (s : STAT) : STAT :=
  mkSTAT (groupStat s) v (waiterStat s) (chefStat s).
Definition set_waiterStat (v : Z) (s : STAT) : STAT :=
  mkSTAT (groupStat s) (receptionistStat s) v (chefStat s).
Definition set_chefStat (v : Z) (s : STAT) : STAT :=
  mkSTAT (groupStat s) (receptionistStat s) (waiterStat s) v.
Definition set_groupsWaiting (v : Z) (s : FULL_STAT) : FULL_STAT :=
  mkFULL_STAT (st s) v (foodGroup s) (assignedTable s)
              (receptionistRequest s) (waiterRequest s).
Definition set_foodGroup (v : Z) (s : FULL_STAT) : FULL_STAT :=
  mkFULL_STAT (st s) (groupsWaiting s) v (assignedTable s)
              (receptionistRequest s) (waiterRequest s).
Definition set_assignedTable (a : list Z) (s : FULL_STAT) : FULL_STAT :=
  mkFULL_STAT (st s) (groupsWaiting s) (foodGroup s) a
              (receptionistRequest s) (waiterRequest s).
Definition set_receptionistRequest (r : request) (s : FULL_STAT) : FULL_STAT :=
  mkFULL_STAT (st s) (groupsWaiting s) (foodGroup s) (assignedTable s)
              r (waiterRequest s).
Definition set_waiterRequest (r : request) (s : FULL_STAT) : FULL_STAT :=
  mkFULL_STAT (st s) (groupsWaiting s) (foodGroup s) (assignedTable s)
              (receptionistRequest s) r.
Definition set_fSt (f : FULL_STAT → FULL_STAT) (w : world) : world :=
  mkWorld (f (fSt w)) (semval w) (groupRecord w).
Definition set_groupRecord (a : list Z) (w : world) : world :=
  mkWorld (fSt w) (semval w) a.
Definition set_semval (s : sem) (v : nat) (w : world) : world :=
  mkWorld (fSt w) (λ s', if decide (s' = s) then v else semval w s') (groupRecord w).

Definition read (l : lvalue) (w : world) : option Z :=
  match l with
  | LgroupStat i => idx (groupStat (st (fSt w))) i
  | LreceptionistStat => Some (receptionistStat (st (fSt w)))
  | LwaiterStat => Some (waiterStat (st (fSt w)))
  | LchefStat => Some (chefStat (st (fSt w)))
  | LgroupsWaiting => Some (groupsWaiting (fSt w))
  | LfoodGroup => Some (foodGroup (fSt w))
  | LassignedTable i => idx (assignedTable (fSt w)) i
  | LreceptionistRequest_reqType => Some (reqType (receptionistRequest (fSt w)))
  | LreceptionistRequest_reqGroup => Some (reqGroup (receptionistRequest (fSt w)))
  | LwaiterRequest_reqType => Some (reqType (waiterRequest (fSt w)))
  | LwaiterRequest_reqGroup => Some (reqGroup (waiterRequest (fSt w)))
  | LgroupRecord i => idx (groupRecord w) i
  end.

Definition write (l : lvalue) (v : Z) (w : world) : option world :=
  match l with
  | LgroupStat i =>
      a ← upd (groupStat (st (fSt w))) i v;
      Some (set_fSt (set_st (set_groupStat a)) w)
  | LreceptionistStat => Some (set_fSt (set_st (set_receptionistStat v)) w)
  | LwaiterStat => Some (set_fSt (set_st (set_waiterStat v)) w)
  | LchefStat => Some (set_fSt (set_st (set_chefStat v)) w)
  | LgroupsWaiting => Some (set_fSt (set_groupsWaiting v) w)
  | LfoodGroup => Some (set_fSt (set_foodGroup v) w)
  | LassignedTable i =>
      a ← upd (assignedTable (fSt w)) i v;
      Some (set_fSt (set_assignedTable a) w)
  | LreceptionistRequest_reqType =>
      Some (set_fSt (λ s, set_receptionistRequest
                            (mkRequest v (reqGroup (receptionistRequest s))) s) w)
  | LreceptionistRequest_reqGroup =>
      Some (set_fSt (λ s, set_receptionistRequest
                            (mkRequest (reqType (receptionistRequest s)) v) s) w)
  | LwaiterRequest_reqType =>
      Some (set_fSt (λ s, set_waiterRequest
                            (mkRequest v (reqGroup (waiterRequest s))) s) w)
  | LwaiterRequest_reqGroup =>
      Some (set_fSt (λ s, set_waiterRequest
                            (mkRequest (reqType (waiterRequest s)) v) s) w)
  | LgroupRecord i =>
      a ← upd (groupRecord w) i v;
      Some (set_groupRecord a w)
  end.

(** ** Programs *)

(** The atomic actions of a process. *)
Inductive act :=
| Down (s : sem)                (* semDown (semgid, s) *)
| Up (s : sem)                  (* semUp (semgid, s) *)
| Load (l : lvalue)
| Store (l : lvalue) (v : Z)
| Save.                         (* saveState (nFic, &sh->fSt) *)

(** A program performs an action and goes on with its answer (the value
    loaded; 0 for the other actions), returns, or has no defined behaviour. *)
Inductive prog (A : Type) : Type :=
| Ret (a : A)
| UB
| Vis (e : act) (k : Z → prog A).
Global Arguments Ret {A} a.
Global Arguments UB {A}.
Global Arguments Vis {A} e k.

Fixpoint prog_bind {A B} (f : A → prog B) (m : prog A) : prog B :=
  match m with
  | Ret a => f a
  | UB => UB
  | Vis e k => Vis e (λ z, prog_bind f (k z))
  end.

Global Instance prog_mret : MRet prog := @Ret.
Global Instance prog_mbind : MBind prog := @prog_bind.

Definition semDown (s : sem) : prog unit := Vis (Down s) (λ _, Ret tt).
Definition semUp (s : sem) : prog unit := Vis (Up s) (λ _, Ret tt).
Definition load (l : lvalue) : prog Z := Vis (Load l) Ret.
Definition store (l : lvalue) (v : Z) : prog unit := Vis (Store l v) (λ _, Ret tt).
Definition saveState : prog unit := Vis Save (λ _, Ret tt).

(** ** Running a program *)

(** Modelled from the spec: [semaphore.c] is not among the sources.  A
    channel is a counting semaphore: an acquire ([semDown]) blocks the
    caller until the semaphore is free, and then takes one unit of it.  The
    world is [None] when the caller blocks.  (The -1 that the primitives
    return when the semaphore set is gone, which the code answers with
    [exit (EXIT_FAILURE)], is left out.) *)
Definition down (s : sem) (w : world) : option world :=
  match semval w s with
  | O => None
  | S v => Some (set_semval s v w)
  end.

(** Modelled from the spec: [semaphore.c] is not among the sources.  A
    release ([semUp]) gives one unit to the semaphore, which wakes a blocked
    acquirer if there is one. *)
Definition up (s : sem) (w : world) : world :=
  set_semval s (S (semval w s)) w.

(** Modelled from the spec: [logging.c] is not among the sources.
    [saveState] appends a snapshot of the shared region to the log; the
    region itself is as before. *)
Definition saved (w : world) : world := w.

Global Arguments down s w /.
Global Arguments up s w /.
Global Arguments saved w /.

(** One action on a world.  An access outside an array has no defined
    behaviour. *)
Inductive result :=
| Ok (z : Z) (w : world)
| Blocks
| Faults.

Definition perform (e : act) (w : world) : result :=
  match e with
  | Down s => match down s w with Some w' => Ok 0 w' | None => Blocks end
  | Up s => Ok 0 (up s w)
  | Load l => match read l w with Some z => Ok z w | None => Faults end
  | Store l v => match write l v w with Some w' => Ok 0 w' | None => Faults end
  | Save => Ok 0 (saved w)
  end.

(** A process running alone ends, stops in front of a semaphore (with the
    rest of its program), or leaves defined behaviour. *)
Inductive outcome (A : Type) : Type :=
| Done (a : A) (w : world)
| Blocked (s : sem) (p : prog A) (w : world)
| Fault (w : world).
Global Arguments Done {A} a w.
Global Arguments Blocked {A} s p w.
Global Arguments Fault {A} w.

Fixpoint exec {A} (p : prog A) (w : world) : outcome A :=
  match p with
  | Ret a => Done a w
  | UB => Fault w
  | Vis e k =>
      match perform e w with
      | Ok z w' => exec (k z) w'
      | Blocks => match e with Down s => Blocked s p w | _ => Fault w end
      | Faults => Fault w
      end
  end.

(** The world a run leaves behind. *)
Definition world_of {A} (o : outcome A) : world :=
  match o with Done _ w | Blocked _ _ w | Fault w => w end.

(** The actions a program can ever perform all satisfy [P]. *)
Fixpoint all_acts {A} (P : act → Prop) (p : prog A) : Prop :=
  match p with
  | Ret _ | UB => True
  | Vis e k => P e ∧ ∀ z, all_acts P (k z)
  end.

(** Mutual exclusion discipline, read off the program: [held] tells whether
    the process is between a [semDown] and a [semUp] of [mutex]; every
    access to the shared region, [saveState] included, needs it. *)
Definition touches_shared (e : act) : bool :=
  match e with
  | Load l | Store l _ => shared l
  | Save => true
  | Down _ | Up _ => false
  end.

Definition holds_after (held : bool) (e : act) : bool :=
  match e with
  | Down mutex => true
  | Up mutex => false
  | _ => held
  end.

Fixpoint disciplined {A} (held : bool) (p : prog A) : Prop :=
  match p with
  | Ret _ | UB => True
  | Vis e k =>
      (touches_shared e = true → held = true)
      ∧ ∀ z, disciplined (holds_after held e) (k z)
  end.

(** Processes side by side: one of them performs its next action.  A
    process in front of a semaphore at zero cannot be the one. *)
Definition pool := list (prog unit).

Inductive step : pool * world → pool * world → Prop :=
| step_act (ps : pool) (i : nat) (e : act) (k : Z → prog unit) (z : Z)
           (w w' : world) :
    ps !! i = Some (Vis e k) →
    perform e w = Ok z w' →
    step (ps, w) (<[i := k z]> ps, w').

(** ** The code *)

Section code.
Context {K : ProbConst}.

(** [x++] on an [int]: signed overflow has no defined behaviour. *)
Definition incr (l : lvalue) : prog unit :=
  v ← load l;
  if decide (v = INT_MAX) then UB else store l (v + 1).

(** *** semSharedMemGroup.c *)

(** The [for] loop of [checkInAtReception] over the tables still to visit:
    the first table holding -1 is given to [id]. *)
Fixpoint checkIn_scan (id : Z) (tables : list Z) : prog bool :=
  match tables with
  | [] => mret false
  | i :: tables' =>
      t ← load (LassignedTable i);
      if decide (t = -1)
      then store (LassignedTable i) id;;
           store (LgroupStat id) AT_TABLE;;
           mret true
      else checkIn_scan id tables'
  end.

(** The function is declared [void]; [isFirstGroup] is what its [return]
    names. *)
Definition checkInAtReception (id : Z) : prog bool :=
  semDown mutex;;
  g ← load LgroupsWaiting;
  let isFirstGroup := bool_decide (g = 0) in
  incr LgroupsWaiting;;
  store LreceptionistRequest_reqType TABLEREQ;;
  store LreceptionistRequest_reqGroup id;;
  store (LgroupStat id) ATRECEPTION;;
  saveState;;
  isTableAvailable ← checkIn_scan id (seqZ 0 NUMTABLES);
  (if isTableAvailable : bool
   then store (LgroupStat id) AT_TABLE
   else store (LgroupStat id) WAITING);;
  saveState;;
  semUp mutex;;
  mret isFirstGroup.

Definition orderFood (id : Z) : prog unit :=
  semDown mutex;;
  store (LgroupStat id) FOOD_REQUEST;;
  saveState;;
  store LwaiterRequest_reqType FOODREQ;;
  store LwaiterRequest_reqGroup id;;
  saveState;;
  semUp mutex.

(** Modelled from the spec: [sharedDataSync.h] is not among the sources.
    The food-arrived channels are one per table: [sh->foodArrived] has
    [NUMTABLES] entries, and the entry at an index outside them (such as
    the -1 of a vacant [assignedTable] entry) has no defined value. *)
Definition sh_foodArrived (tableId : Z) : prog sem :=
  if decide (0 ≤ tableId < NUMTABLES) then mret (foodArrived tableId) else UB.

Definition waitFood (id : Z) : prog unit :=
  semDown mutex;;
  store (LgroupStat id) WAIT_FOR_FOOD;;
  saveState;;
  semUp mutex;;
  tableId ← load (LassignedTable id);
  s ← sh_foodArrived tableId;
  semDown s;;
  semDown mutex;;
  store (LgroupStat id) EAT;;
  saveState;;
  semUp mutex.

Definition checkOutAtReception (id : Z) : prog unit :=
  semDown mutex;;
  store (LgroupStat id) CHECKOUT;;
  store LreceptionistRequest_reqType BILLREQ;;
  store LreceptionistRequest_reqGroup id;;
  saveState;;
  semUp mutex;;
  semDown (tableDone id);;
  semDown mutex;;
  store (LgroupStat id) LEAVING;;
  saveState;;
  semUp mutex.

(** *** semSharedMemReceptionist.c *)

(** First loop of [decideTableOrWait]: tables whose entry is 1. *)
Fixpoint countOccupied (tables : list Z) (tablesOccupied : Z) : prog Z :=
  match tables with
  | [] => mret tablesOccupied
  | tableId :: tables' =>
      t ← load (LassignedTable tableId);
      countOccupied tables'
        (if decide (t = 1) then tablesOccupied + 1 else tablesOccupied)
  end.

(** Second loop: the first table whose entry is -1. *)
Fixpoint firstVacant (tables : list Z) : prog Z :=
  match tables with
  | [] => mret (-1)
  | tableId :: tables' =>
      t ← load (LassignedTable tableId);
      if decide (t = -1) then mret tableId else firstVacant tables'
  end.

Definition decideTableOrWait (n : Z) : prog Z :=
  tablesOccupied ← countOccupied (seqZ 0 NUMTABLES) 0;
  if decide (tablesOccupied = NUMTABLES)
  then mret (-1)
  else firstVacant (seqZ 0 NUMTABLES).

(** The loop of [decideNextGroup]: the first group recorded [WAIT]. *)
Fixpoint firstWaiting (groups : list Z) : prog Z :=
  match groups with
  | [] => mret (-1)
  | i :: groups' =>
      r ← load (LgroupRecord i);
      if decide (r = WAIT) then mret i else firstWaiting groups'
  end.

Definition decideNextGroup : prog Z :=
  semDown mutex;;
  nextGroup ← firstWaiting (seqZ 0 MAXGROUPS);
  (if decide (nextGroup ≠ -1)
   then store (LgroupRecord nextGroup) ATTABLE;;
        store (LgroupStat nextGroup) AT_TABLE
   else mret tt);;
  semUp mutex;;
  mret nextGroup.

Definition waitForGroup : prog request :=
  let req := mkRequest 0 0 in
  semDown mutex;;
  store LreceptionistStat WAIT;;
  saveState;;
  semUp mutex;;
  mret req.

Definition provideTableOrWaitingRoom (n : Z) : prog unit :=
  semDown mutex;;
  tableId ← decideTableOrWait n;
  (if decide (tableId ≠ -1)
   then store LreceptionistStat ASSIGNTABLE;;
        store (LgroupRecord n) ATTABLE;;
        semUp (waitForTable n)
   else store LreceptionistStat WAIT;;
        store (LgroupRecord n) WAIT);;
  saveState;;
  semUp mutex.

Definition receivePayment (n : Z) : prog unit :=
  semDown mutex;;
  store LreceptionistStat RECVPAY;;
  tableId ← load (LassignedTable n);
  store (LassignedTable tableId) (-1);;
  store (LgroupRecord n) DONE;;
  nextGroup ← decideNextGroup;
  (if decide (nextGroup ≠ -1)
   then store (LassignedTable tableId) nextGroup;;
        store (LgroupRecord nextGroup) ATTABLE;;
        store (LgroupStat nextGroup) AT_TABLE;;
        semUp (waitForTable nextGroup)
   else mret tt);;
  saveState;;
  semUp mutex.

(** *** semSharedMemWaiter.c *)

(** The [for] loop of [waitForClientOrChef]: the first group in
    [FOOD_REQUEST] is moved to [WAIT_FOR_FOOD] and becomes the request. *)
Fixpoint scanFoodRequest (groups : list Z) : prog (option request) :=
  match groups with
  | [] => mret None
  | i :: groups' =>
      s ← load (LgroupStat i);
      if decide (s = FOOD_REQUEST)
      then store (LgroupStat i) WAIT_FOR_FOOD;;
           mret (Some (mkRequest FOODREQ i))
      else scanFoodRequest groups'
  end.

(** One turn of the [while (!foundRequest)] loop, up to the [semUp]. *)
Definition waitForClientOrChef_turn : prog (option request) :=
  semDown mutex;;
  found ← scanFoodRequest (seqZ 0 MAXGROUPS);
  found' ← match found with
           | Some req => mret (Some req)
           | None =>
               c ← load LchefStat;
               if decide (c = FOODREADY)
               then g ← load LfoodGroup; mret (Some (mkRequest FOODREADY g))
               else mret None
           end;
  semUp mutex;;
  mret found'.

(** The loop, for at most [turns] turns; [None] when no request was found
    in any of them and the loop would go on. *)
Fixpoint waitForClientOrChef_loop (turns : nat) : prog (option request) :=
  match turns with
  | O => mret None
  | S turns' =>
      found ← waitForClientOrChef_turn;
      match found with
      | Some req => mret (Some req)
      | None =>
          store LwaiterStat WAIT_FOR_REQUEST;;
          waitForClientOrChef_loop turns'
      end
  end.

Definition waitForClientOrChef (turns : nat) : prog (option request) :=
  found ← waitForClientOrChef_loop turns;
  match found with
  | Some req => semUp waiterRequestPossible;; mret (Some req)
  | None => mret None
  end.

Definition informChef (n : Z) : prog unit :=
  semDown mutex;;
  store LwaiterRequest_reqGroup n;;
  store LwaiterStat INFORM_CHEF;;
  saveState;;
  semUp mutex;;
  semUp waitOrder;;
  semDown orderReceived.

Definition takeFoodToTable (n : Z) : prog unit :=
  semDown mutex;;
  store LwaiterStat TAKE_TO_TABLE;;
  saveState;;
  semUp mutex;;
  tableId ← load (LassignedTable n);
  s ← sh_foodArrived tableId;
  semUp s.

(** *** The operations of the three actors *)

Inductive operation :=
| CheckInAtReception (id : Z)
| OrderFood (id : Z)
| WaitFood (id : Z)
| CheckOutAtReception (id : Z)
| WaitForGroup
| ProvideTableOrWaitingRoom (n : Z)
| ReceivePayment (n : Z)
| WaitForClientOrChef (turns : nat)
| InformChef (n : Z)
| TakeFoodToTable (n : Z).

Definition code (o : operation) : prog unit :=
  match o with
  | CheckInAtReception id => checkInAtReception id;; mret tt
  | OrderFood id => orderFood id
  | WaitFood id => waitFood id
  | CheckOutAtReception id => checkOutAtReception id
  | WaitForGroup => waitForGroup;; mret tt
  | ProvideTableOrWaitingRoom n => provideTableOrWaitingRoom n
  | ReceivePayment n => receivePayment n
  | WaitForClientOrChef turns => waitForClientOrChef turns;; mret tt
  | InformChef n => informChef n
  | TakeFoodToTable n => takeFoodToTable n
  end.

End code.

(** ** Properties of worlds and footprints of programs *)

(** The shared region is the same up to the receptionist's own state. *)
Definition same_but_receptionistStat (s s' : FULL_STAT) : Prop :=
  groupStat (st s') = groupStat (st s)
  ∧ waiterStat (st s') = waiterStat (st s)
  ∧ chefStat (st s') = chefStat (st s)
  ∧ groupsWaiting s' = groupsWaiting s
  ∧ foodGroup s' = foodGroup s
  ∧ assignedTable s' = assignedTable s
  ∧ receptionistRequest s' = receptionistRequest s
  ∧ waiterRequest s' = waiterRequest s.

(** What [provideTableOrWaitingRoom n] may do: take and release [mutex],
    read anything, write the receptionist's state and [groupRecord[n]],
    signal [waitForTable[n]], save the state. *)
Definition provideTable_act (n : Z) (e : act) : Prop :=
  match e with
  | Down s => s = mutex
  | Up s => s = mutex ∨ s = waitForTable n
  | Load _ => True
  | Store l _ => l = LreceptionistStat ∨ l = LgroupRecord n
  | Save => True
  end.

(** No operation on any [tableDone] semaphore. *)
Definition not_on_tableDone (e : act) : Prop :=
  match e with Up (tableDone _) | Down (tableDone _) => False | _ => True end.

(** What a run of [provideTableOrWaitingRoom n] can have changed. *)
Definition provideTable_frame (n : Z) (w w' : world) : Prop :=
  same_but_receptionistStat (fSt w) (fSt w')
  ∧ (∀ i, i ≠ n → idx (groupRecord w') i = idx (groupRecord w) i)
  ∧ (∀ s, s ≠ mutex → s ≠ waitForTable n → semval w' s = semval w s).

(** The shared region is the same up to the waiter's own state. *)
Definition same_but_waiterStat (s s' : FULL_STAT) : Prop :=
  s' = set_st (set_waiterStat (waiterStat (st s'))) s.

(** The only semaphore waited on is [mutex]. *)
Definition waits_on_mutex_only (e : act) : Prop :=
  match e with Down s => s = mutex | _ => True end.

(** No signal on any [tableDone] semaphore. *)
Definition no_tableDone_signal (e : act) : Prop :=
  match e with Up (tableDone _) => False | _ => True end.

(** No write to [groupsWaiting]. *)
Definition not_store_groupsWaiting (e : act) : Prop :=
  match e with Store LgroupsWaiting _ => False | _ => True end.

(** ** The table invariant and the states of groups *)

Section invariant.
Context {K : ProbConst}.

(** The tables (among the [NUMTABLES] first entries of [assignedTable])
    bound to group [g]. *)
Definition tablesOf (g : Z) (w : world) : list Z :=
  filter (λ t, idx (assignedTable (fSt w)) t = Some g) (seqZ 0 NUMTABLES).

(** Seated, ordering, awaiting food, eating or checking out. *)
Definition seatedLike (s : Z) : bool :=
  bool_decide (s = AT_TABLE ∨ s = FOOD_REQUEST ∨ s = WAIT_FOR_FOOD
               ∨ s = EAT ∨ s = CHECKOUT).

(** Every group in one of these states is bound to exactly one table.  (A
    table is bound to at most one group by the type of [assignedTable]:
    an entry is -1 or one group.) *)
Definition table_inv (w : world) : bool :=
  forallb
    (λ g, match idx (groupStat (st (fSt w))) g with
          | Some s =>
              implb (seatedLike s) (bool_decide (length (tablesOf g w) = 1%nat))
          | None => true
          end)
    (seqZ 0 (Z.of_nat (length (groupStat (st (fSt w)))))).

(** Every group of [groups] has a state, and it is not [FOOD_REQUEST]. *)
Definition no_order (w : world) (groups : list Z) : Prop :=
  Forall (λ i, ∃ s, idx (groupStat (st (fSt w))) i = Some s ∧ s ≠ FOOD_REQUEST)
         groups.

(** The groups at the reception or waiting for a table: checked in, not
    yet seated. *)
Definition checkedInNotSeated (w : world) : Z :=
  Z.of_nat (length (filter (λ s, s = ATRECEPTION ∨ s = WAITING)
                           (groupStat (st (fSt w))))).

End invariant.

(** ** The life cycle of the waiter *)

Section life.
Context {K : ProbConst}.

(** The [switch] in the waiter's [main] (the [printf] and [puts] left
    out). *)
Definition waiter_serve (req : request) : prog unit :=
  if decide (reqType req = FOODREQ)
  then informChef (reqGroup req)
  else if decide (reqType req = FOODREADY)
       then takeFoodToTable (reqGroup req)
       else mret tt.

(** One turn of the [while] loop of the waiter's [main]; [false] when
    [waitForClientOrChef] is still looking after [turns] turns of its own
    loop. *)
Definition waiter_turn (turns : nat) : prog bool :=
  found ← waitForClientOrChef turns;
  match found with
  | Some req => waiter_serve req;; mret true
  | None => mret false
  end.

End life.

(** ** The mutex along a program *)

(** What an action adds to the units of [mutex] its process holds. *)
Definition mutex_delta (e : act) : Z :=
  match e with
  | Down mutex => 1
  | Up mutex => -1
  | _ => 0
  end.

(** A process that holds [d] units of [mutex] and goes on with [p] never
    gives a unit it does not hold, and holds [d'] when [p] returns. *)
Fixpoint balance {A} (d d' : Z) (p : prog A) : Prop :=
  match p with
  | Ret _ => d = d'
  | UB => True
  | Vis e k =>
      0 ≤ d + mutex_delta e ∧ ∀ z, balance (d + mutex_delta e) d' (k z)
  end.

(** A process that holds [d] units of [mutex] and goes on with [p] holds
    two of them at some point before [p] returns. *)
Fixpoint needs_two {A} (d : Z) (p : prog A) : Prop :=
  match p with
  | Ret _ => False
  | UB => True
  | Vis e k =>
      2 ≤ d + mutex_delta e ∨ ∀ z, needs_two (d + mutex_delta e) (k z)
  end.

(** The units held by the processes of a pool, one number per process. *)
Definition total (ds : list Z) : Z := foldr Z.add 0 ds.

Definition pool_inv (ds : list Z) (ps : pool) : Prop :=
  Forall2 (λ d p, 0 ≤ d ∧ balance d 0 p) ds ps.

(** ** Sample worlds *)

(** An instance of the constants, for [groups] groups and [tables] tables. *)
Definition consts (groups tables : Z) : ProbConst := {|
  MAXGROUPS := groups; NUMTABLES := tables;
  TABLEREQ := 1; BILLREQ := 2; FOODREQ := 1; FOODREADY := 2;
  ATRECEPTION := 3; FOOD_REQUEST := 4; WAIT_FOR_FOOD := 5; EAT := 6;
  CHECKOUT := 7; LEAVING := 8;
  WAIT_FOR_REQUEST := 0; INFORM_CHEF := 1; TAKE_TO_TABLE := 2;
  ASSIGNTABLE := 1; RECVPAY := 2
|}.

(** Every semaphore at zero but [mutex], which is free. *)
Definition sems0 (s : sem) : nat :=
  match s with mutex => 1%nat | _ => 0%nat end.

(** The world before any group arrives: every table vacant, every group
    recorded [TOARRIVE]. *)
Definition start (groups tables : nat) : world :=
  mkWorld (mkFULL_STAT (mkSTAT (replicate groups 0) 0 0 0) 0 0
                       (replicate tables (-1)) (mkRequest 0 0) (mkRequest 0 0))
          sems0 (replicate groups TOARRIVE).

(** One process after the other, each run alone as far as it gets. *)
Fixpoint run (ps : list (prog unit)) (w : world) : world :=
  match ps with
  | [] => w
  | p :: ps' => run ps' (world_of (exec p w))
  end.

(** Three groups, three tables: groups 1, 2 and 0 check in, in this order. *)
Definition threeSeated : world :=
  let K := consts 3 3 in
  run [code (CheckInAtReception 1); code (CheckInAtReception 2);
       code (CheckInAtReception 0)] (start 3 3).

(** Three groups, one table: each group checks in and the receptionist
    handles its table request, groups 0, 1 and 2 in this order. *)
Definition oneTable : world :=
  let K := consts 3 1 in
  run [code (CheckInAtReception 0); code (ProvideTableOrWaitingRoom 0);
       code (CheckInAtReception 1); code (ProvideTableOrWaitingRoom 1);
       code (CheckInAtReception 2); code (ProvideTableOrWaitingRoom 2)]
      (start 3 1).

(** One table, three groups: group 0 has checked in and sits at the
    table. *)
Definition oneSeated : world :=
  let K := consts 3 1 in
  run [code (CheckInAtReception 0)] (start 3 1).

(** Three tables, three groups: group 1 has checked in and sits at table
    0. *)
Definition firstTaken : world :=
  let K := consts 3 3 in
  run [code (CheckInAtReception 1)] (start 3 3).

(** One table, three groups: group 1 has ordered. *)
Definition oneOrdered : world :=
  let K := consts 3 1 in
  run [code (OrderFood 1)] (start 3 1).

(** One table, three groups, nobody has ordered, and the chef is in state
    [FOODREADY] for group 2. *)
Definition foodReady : world :=
  let K := consts 3 1 in
  set_fSt (λ s, set_foodGroup 2 (set_st (set_chefStat FOODREADY) s))
          (start 3 1).

(** ** Reasoning about programs *)

Section programs.
Context {A B : Type}.

Lemma exec_bind (m : prog A) (f : A → prog B) (w : world) :
  exec (m ≫= f) w =
  match exec m w with
  | Done a w' => exec (f a) w'
  | Blocked s p w' => Blocked s (p ≫= f) w'
  | Fault w' => Fault w'
  end.
Proof.
  revert w. induction m as [a| |e k IH]; intros w; try reflexivity.
  change (Vis e k ≫= f) with (Vis e (λ z, k z ≫= f)). simpl.
  destruct (perform e w) as [z w'| |]; [apply IH| |reflexivity].
  destruct e; reflexivity.
Qed.

Lemma all_acts_bind (P : act → Prop) (m : prog A) (f : A → prog B) :
  all_acts P m → (∀ a, all_acts P (f a)) → all_acts P (m ≫= f).
Proof.
  intros Hm Hf. induction m as [a| |e k IH]; simpl in *; [apply Hf|done|].
  destruct Hm as [He Hk]. split; [done|]. intros z. apply IH, Hk.
Qed.

Lemma all_acts_mono (P Q : act → Prop) (m : prog A) :
  (∀ e, P e → Q e) → all_acts P m → all_acts Q m.
Proof.
  intros HPQ. induction m as [a| |e k IH]; simpl; [done..|].
  intros [He Hk]. split; [by apply HPQ|]. intros z. apply IH, Hk.
Qed.

(** A relation between worlds that every permitted action respects holds
    between the start of a run and wherever the run gets to. *)
Lemma exec_all_acts (P : act → Prop) (R : world → world → Prop) (m : prog A) :
  (∀ w, R w w) →
  (∀ w1 w2 w3, R w1 w2 → R w2 w3 → R w1 w3) →
  (∀ e w z w', P e → perform e w = Ok z w' → R w w') →
  all_acts P m → ∀ w, R w (world_of (exec m w)).
Proof.
  intros Hrefl Htrans Hstep. induction m as [a| |e k IH]; simpl; [done..|].
  intros [He Hk] w. destruct (perform e w) as [z w'| |] eqn:Hp.
  - eapply Htrans; [by eapply Hstep|]. apply IH, Hk.
  - destruct e; apply Hrefl.
  - apply Hrefl.
Qed.

Lemma disciplined_bind (held : bool) (m : prog A) (f : A → prog B) :
  disciplined held (m ≫= f) → disciplined held m.
Proof.
  revert held. induction m as [a| |e k IH]; intros held; simpl; [done..|].
  intros [He Hk]. split; [done|]. intros z. apply IH, Hk.
Qed.

End programs.

(** What every action of every process respects holds along every
    interleaving. *)
Lemma steps_all_acts (P : act → Prop) (R : world → world → Prop)
    (ps ps' : pool) (w w' : world) :
  (∀ w, R w w) →
  (∀ w1 w2 w3, R w1 w2 → R w2 w3 → R w1 w3) →
  (∀ e w z w', P e → perform e w = Ok z w' → R w w') →
  Forall (all_acts P) ps →
  rtc step (ps, w) (ps', w') →
  R w w' ∧ Forall (all_acts P) ps'.
Proof.
  intros Hrefl Htrans Hstep Hps Hrtc.
  remember (ps, w) as x eqn:Hx. remember (ps', w') as y eqn:Hy.
  revert ps w Hx Hps.
  induction Hrtc as [x|x x1 y Hs _ IH]; intros ps w Hx Hps.
  - by simplify_eq.
  - rewrite Hx in Hs. inversion Hs as [ps0 i e k z w0 w1 Hi Hp Hps0 Hx1].
    pose proof (Forall_lookup_1 _ _ _ _ Hps Hi) as [He Hk].
    destruct (IH Hy _ _ (eq_sym Hx1)) as [HR Hps'].
    + apply Forall_insert; [done|apply Hk].
    + split; [|done]. eapply Htrans; [|exact HR]. by eapply Hstep.
Qed.


(** ** Arrays *)

Lemma idx_upd_ne (a a' : list Z) (i j v : Z) :
  upd a i v = Some a' → j ≠ i → idx a' j = idx a j.
Proof.
  unfold upd, idx. intros Hu Hj. case_decide; simplify_eq.
  case_decide; [|done]. apply list_lookup_insert_ne. lia.
Qed.

Lemma idx_upd_eq (a a' : list Z) (i v : Z) :
  upd a i v = Some a' → idx a' i = Some v.
Proof.
  unfold upd, idx. intros Hu. case_decide; simplify_eq.
  rewrite decide_True by lia. apply list_lookup_insert_eq. lia.
Qed.

Lemma upd_Some (a : list Z) (i v : Z) :
  0 ≤ i < Z.of_nat (length a) → upd a i v = Some (<[Z.to_nat i := v]> a).
Proof. intros. unfold upd. by rewrite decide_True. Qed.

Lemma idx_Some_range (a : list Z) (i v : Z) :
  idx a i = Some v → 0 ≤ i < Z.of_nat (length a).
Proof.
  unfold idx. case_decide; [|done]. intros Hl%lookup_lt_Some. lia.
Qed.

(** The indices of a [for] loop, around one of them. *)
Lemma seqZ_split (i n : Z) :
  0 ≤ i < n → seqZ 0 n = seqZ 0 i ++ i :: seqZ (i + 1) (n - i - 1).
Proof.
  intros Hi. replace n with (i + (n - i)) at 1 by lia.
  rewrite seqZ_app, (seqZ_cons (0 + i)) by lia.
  do 3 f_equal; lia.
Qed.

(** ** The receptionist *)

Section receptionist.
Context {K : ProbConst}.

Lemma countOccupied_acts (P : act → Prop) tables k :
  (∀ l, P (Load l)) → all_acts P (countOccupied tables k).
Proof.
  intros HP. revert k. induction tables as [|t ts IH]; intros k; simpl; [done|].
  split; [done|]. intros z. apply IH.
Qed.

Lemma firstVacant_acts (P : act → Prop) tables :
  (∀ l, P (Load l)) → all_acts P (firstVacant tables).
Proof.
  intros HP. induction tables as [|t ts IH]; simpl; [done|].
  split; [done|]. intros z. by case_decide.
Qed.

Lemma decideTableOrWait_acts (P : act → Prop) n :
  (∀ l, P (Load l)) → all_acts P (decideTableOrWait n).
Proof.
  intros HP. apply all_acts_bind; [by apply countOccupied_acts|].
  intros k. case_decide; [done|by apply firstVacant_acts].
Qed.

Lemma provideTableOrWaitingRoom_acts n :
  all_acts (provideTable_act n) (provideTableOrWaitingRoom n).
Proof.
  unfold provideTableOrWaitingRoom.
  apply all_acts_bind; [done|intros _].
  apply all_acts_bind; [by apply decideTableOrWait_acts|intros tableId].
  apply all_acts_bind; [|intros _; simpl; naive_solver].
  case_decide; simpl; naive_solver.
Qed.

Lemma provideTable_frame_refl n w : provideTable_frame n w w.
Proof. by repeat split. Qed.

Lemma provideTable_frame_trans n w1 w2 w3 :
  provideTable_frame n w1 w2 → provideTable_frame n w2 w3 →
  provideTable_frame n w1 w3.
Proof.
  intros (Hs & Hr & Hv) (Hs' & Hr' & Hv'). split_and!.
  - unfold same_but_receptionistStat in *. destruct_and!. split_and!; congruence.
  - intros i Hi. rewrite Hr', Hr; done.
  - intros s Hm Ht. rewrite Hv', Hv; done.
Qed.

Lemma provideTable_frame_step n e w z w' :
  provideTable_act n e → perform e w = Ok z w' → provideTable_frame n w w'.
Proof.
  destruct e as [s|s|l|l v|]; simpl; intros He Hp.
  - rewrite He in Hp. destruct (semval w mutex); [done|]. injection Hp as <- <-.
    repeat split; simpl; try done. intros s' ? ?. by rewrite decide_False.
  - simplify_eq. repeat split; simpl; try done.
    intros s' ? ?. rewrite decide_False; [done|]. by destruct He; intros ->.
  - destruct (read l w); simplify_eq. apply provideTable_frame_refl.
  - destruct (write l v w) as [w1|] eqn:Hw; simplify_eq.
    destruct He as [-> | ->]; simpl in Hw; simplify_option_eq.
    + by repeat split.
    + repeat split; simpl; try done. intros i Hi. by eapply idx_upd_ne.
  - simplify_eq. apply provideTable_frame_refl.
Qed.

(** C10. Whatever group [n] and whatever the world, a run of
    [provideTableOrWaitingRoom n] (to its end, to a semaphore it stops at,
    or out of defined behaviour) leaves [assignedTable] and every entry of
    [groupStat] as they were; of the shared region only the receptionist's
    state can differ, of [groupRecord] only entry [n], and of the
    semaphores only [mutex] and [waitForTable[n]]. *)
Theorem provideTableOrWaitingRoom_frame (n : Z) (w : world) :
  let w' := world_of (exec (provideTableOrWaitingRoom n) w) in
  assignedTable (fSt w') = assignedTable (fSt w)
  ∧ groupStat (st (fSt w')) = groupStat (st (fSt w))
  ∧ provideTable_frame n w w'.
Proof.
  assert (provideTable_frame n w
            (world_of (exec (provideTableOrWaitingRoom n) w))) as Hf.
  { apply (exec_all_acts (provideTable_act n)).
    - apply provideTable_frame_refl.
    - apply provideTable_frame_trans.
    - apply provideTable_frame_step.
    - apply provideTableOrWaitingRoom_acts. }
  simpl. split_and!; [|
|done]; apply Hf.
Qed.

Lemma firstWaiting_acts (P : act → Prop) groups :
  (∀ l, P (Load l)) → all_acts P (firstWaiting groups).
Proof.
  intros HP. induction groups as [|i gs IH]; simpl; [done|].
  split; [done|]. intros z. by case_decide.
Qed.

Lemma decideNextGroup_acts (P : act → Prop) :
  P (Down mutex) → P (Up mutex) → (∀ l, P (Load l)) →
  (∀ i v, P (Store (LgroupRecord i) v)) →
  (∀ i v, P (Store (LgroupStat i) v)) →
  all_acts P decideNextGroup.
Proof.
  intros Hd Hu Hl Hr Hs. unfold decideNextGroup.
  apply all_acts_bind; [done|intros _].
  apply all_acts_bind; [by apply firstWaiting_acts|intros nextGroup].
  apply all_acts_bind; [|intros _; by simpl].
  case_decide; by simpl.
Qed.

Lemma receivePayment_acts (P : act → Prop) n :
  P (Down mutex) → P (Up mutex) → (∀ l, P (Load l)) → P Save →
  (∀ i v, P (Store (LgroupRecord i) v)) →
  (∀ i v, P (Store (LgroupStat i) v)) →
  (∀ i v, P (Store (LassignedTable i) v)) →
  (∀ v, P (Store LreceptionistStat v)) →
  (∀ g, P (Up (waitForTable g))) →
  all_acts P (receivePayment n).
Proof.
  intros Hd Hu Hl Hv Hr Hs Ha Hc Hw. unfold receivePayment.
  do 2 (apply all_acts_bind; [done|intros _]).
  apply all_acts_bind; [done|intros tableId].
  do 2 (apply all_acts_bind; [done|intros _]).
  apply all_acts_bind; [by apply decideNextGroup_acts|intros nextGroup].
  apply all_acts_bind; [|intros _; by simpl].
  case_decide; by simpl.
Qed.

Lemma not_on_tableDone_step e w z w' g :
  not_on_tableDone e → perform e w = Ok z w' →
  semval w' (tableDone g) = semval w (tableDone g).
Proof.
  destruct e as [s|s|l|l v|]; simpl; intros He Hp.
  - destruct (semval w s); [done|]. injection Hp as <- <-. simpl.
    rewrite decide_False; [done|]. intros <-. done.
  - injection Hp as <- <-. simpl.
    rewrite decide_False; [done|]. intros <-. done.
  - destruct (read l w); by simplify_eq.
  - destruct (write l v w) as [w1|] eqn:Hw; [|done]. injection Hp as <- <-.
    destruct l; simpl in Hw; simplify_option_eq; done.
  - by simplify_eq.
Qed.

(** C1. The code departs from the specification: [receivePayment n] has no
    [semUp] on a [tableDone] semaphore.  From any world, and wherever the
    run gets to, each [tableDone[g]] holds the value it held before, so the
    group waiting on it in [checkOutAtReception] is not released. *)
Theorem receivePayment_leaves_tableDone (n g : Z) (w : world) :
  semval (world_of (exec (receivePayment n) w)) (tableDone g)
  = semval w (tableDone g).
Proof.
  apply (exec_all_acts not_on_tableDone
           (λ w w', semval w' (tableDone g) = semval w (tableDone g))).
  - done.
  - intros w1 w2 w3 H12 H23. by rewrite H23.
  - intros e w1 z w2. apply not_on_tableDone_step.
  - by apply receivePayment_acts.
Qed.

(** C2. The code departs from the specification.  With [mutex] free,
    [waitForGroup] returns at once: it waits on no semaphore but [mutex],
    its result is the request [{0, 0}] whatever the mailbox holds, and the
    mailbox [receptionistRequest] is left as it was (of the shared region
    only the receptionist's state changes). *)
Theorem waitForGroup_ignores_mailbox (w : world) :
  semval w mutex ≠ 0%nat →
  ∃ w', exec waitForGroup w = Done (mkRequest 0 0) w'
        ∧ fSt w' = set_st (set_receptionistStat WAIT) (fSt w)
        ∧ (∀ s, semval w' s = semval w s)
        ∧ groupRecord w' = groupRecord w.
Proof.
  intros Hm. unfold waitForGroup. simpl.
  destruct (semval w mutex) as [|v] eqn:Hv; [done|]. simpl.
  eexists. split; [reflexivity|]. simpl. split_and!; try done.
  intros s. repeat case_decide; by subst.
Qed.

(** The scan of [decideNextGroup] returns the lowest group recorded
    [WAIT]. *)
Lemma firstWaiting_lowest w g :
  0 ≤ g < MAXGROUPS →
  idx (groupRecord w) g = Some WAIT →
  (∀ j, 0 ≤ j < g → ∃ r, idx (groupRecord w) j = Some r ∧ r ≠ WAIT) →
  exec (firstWaiting (seqZ 0 MAXGROUPS)) w = Done g w.
Proof.
  intros Hg Hw Hlow.
  rewrite (seqZ_split g) by done.
  assert (Forall (λ j, ∃ r, idx (groupRecord w) j = Some r ∧ r ≠ WAIT)
                 (seqZ 0 g)) as Hpre.
  { apply Forall_seqZ. intros j Hj. apply Hlow. lia. }
  induction Hpre as [|j pre (r & Hj & Hr) _ IH]; simpl.
  - rewrite Hw. by rewrite decide_True.
  - rewrite Hj. by rewrite decide_False.
Qed.

Lemma receivePayment_exec n w t :
  semval w mutex = 1%nat →
  idx (assignedTable (fSt w)) n = Some t →
  0 ≤ t < Z.of_nat (length (assignedTable (fSt w))) →
  0 ≤ n < Z.of_nat (length (groupRecord w)) →
  ∃ p w', exec (receivePayment n) w = Blocked mutex p w'
    ∧ fSt w' = set_assignedTable (<[Z.to_nat t := -1]> (assignedTable (fSt w)))
                 (set_st (set_receptionistStat RECVPAY) (fSt w))
    ∧ groupRecord w' = <[Z.to_nat n := DONE]> (groupRecord w)
    ∧ ∀ s, semval w' s = if decide (s = mutex) then 0%nat else semval w s.
Proof.
  intros Hm Ht Hrt Hrn. unfold receivePayment. simpl.
  rewrite Hm. simpl. rewrite Ht. simpl.
  rewrite (upd_Some _ t) by done. simpl.
  rewrite (upd_Some _ n) by done. simpl.
  eexists _, _. split; [reflexivity|]. simpl. split_and!; try done.
Qed.

(** C5. The code departs from the specification.  [receivePayment n]
    reads [assignedTable[n]], the entry at the group's own number, and
    vacates the table whose number it finds there.  When group [n] holds
    table [t0] and that entry names another table [t], it is [t] that is
    vacated: [t0] is still bound to [n] where the run ends (in front of
    [mutex], see C6), and [groupRecord[n]] is [DONE]. *)
Theorem receivePayment_frees_by_group_index (n t0 t : Z) (w : world) :
  semval w mutex = 1%nat →
  idx (assignedTable (fSt w)) t0 = Some n →
  idx (assignedTable (fSt w)) n = Some t →
  t ≠ t0 →
  0 ≤ t < Z.of_nat (length (assignedTable (fSt w))) →
  0 ≤ n < Z.of_nat (length (groupRecord w)) →
  let w' := world_of (exec (receivePayment n) w) in
  idx (assignedTable (fSt w')) t0 = Some n
  ∧ idx (assignedTable (fSt w')) t = Some (-1)
  ∧ idx (groupRecord w') n = Some DONE.
Proof.
  intros Hm Ht0 Ht Hne Hrt Hrn.
  destruct (receivePayment_exec n w t) as (p & w' & -> & Hf & Hr & _); try done.
  simpl. rewrite Hf, Hr. simpl. split_and!.
  - rewrite <- Ht0. by eapply idx_upd_ne; [apply upd_Some|].
  - by eapply idx_upd_eq, upd_Some.
  - by eapply idx_upd_eq, upd_Some.
Qed.

(** C6. The code departs from the specification.  [receivePayment] calls
    [decideNextGroup] while it holds [mutex], and [decideNextGroup] starts
    with a [semDown] on [mutex]: with the binary [mutex] the receptionist
    stops there.  Table [t] has been vacated, but a group [g] recorded
    [WAIT] is still recorded [WAIT], no entry of [groupStat] has changed,
    [t] stays vacant and [waitForTable[g]] is not signaled. *)
Theorem receivePayment_stops_before_handoff (n t g : Z) (w : world) :
  semval w mutex = 1%nat →
  idx (assignedTable (fSt w)) n = Some t →
  0 ≤ t < Z.of_nat (length (assignedTable (fSt w))) →
  0 ≤ n < Z.of_nat (length (groupRecord w)) →
  idx (groupRecord w) g = Some WAIT → g ≠ n →
  ∃ p w', exec (receivePayment n) w = Blocked mutex p w'
    ∧ semval w' mutex = 0%nat
    ∧ idx (assignedTable (fSt w')) t = Some (-1)
    ∧ idx (groupRecord w') g = Some WAIT
    ∧ groupStat (st (fSt w')) = groupStat (st (fSt w))
    ∧ semval w' (waitForTable g) = semval w (waitForTable g).
Proof.
  intros Hm Ht Hrt Hrn Hg Hgn.
  destruct (receivePayment_exec n w t) as (p & w' & He & Hf & Hr & Hs); try done.
  exists p, w'. split; [done|]. rewrite Hf, Hr, !Hs. simpl. split_and!; try done.
  - by eapply idx_upd_eq, upd_Some.
  - rewrite <- Hg. by eapply idx_upd_ne; [apply upd_Some|].
Qed.

(** With [mutex] at most 1, [receivePayment] never returns. *)
Lemma receivePayment_never_done n w a w' :
  (semval w mutex ≤ 1)%nat → exec (receivePayment n) w ≠ Done a w'.
Proof.
  intros Hm. unfold receivePayment. simpl.
  destruct (semval w mutex) as [|[|v]] eqn:Hv; [done| |lia]. simpl.
  destruct (idx _ n) as [t|]; [|done]. simpl.
  destruct (upd _ t _) as [a1|]; [|done]. simpl.
  destruct (upd _ n _) as [a2|]; done.
Qed.

End receptionist.

(** ** The groups *)

Section group.
Context {K : ProbConst}.

(** The scan stops at the first vacant table and gives it to [id]. *)
Lemma checkIn_scan_exec id w pre t post a1 a2 :
  Forall (λ j, ∃ v, idx (assignedTable (fSt w)) j = Some v ∧ v ≠ -1) pre →
  idx (assignedTable (fSt w)) t = Some (-1) →
  upd (assignedTable (fSt w)) t id = Some a1 →
  upd (groupStat (st (fSt w))) id AT_TABLE = Some a2 →
  exec (checkIn_scan id (pre ++ t :: post)) w
  = Done true (set_fSt (set_st (set_groupStat a2))
                 (set_fSt (set_assignedTable a1) w)).
Proof.
  intros Hpre Ht Ha1 Ha2.
  induction Hpre as [|j pre (v & Hj & Hv) _ IH]; simpl.
  - rewrite Ht. simpl. rewrite Ha1. simpl. by rewrite Ha2.
  - rewrite Hj. by rewrite decide_False.
Qed.

Lemma filter_bound_one (a a' : list Z) (g t : Z) (l : list Z) :
  NoDup l → t ∈ l →
  (∀ j, j ≠ t → idx a' j = idx a j) →
  idx a' t = Some g →
  filter (λ j, idx a j = Some g) l = [] →
  filter (λ j, idx a' j = Some g) l = [t].
Proof.
  intros Hnd Ht Hne Heq.
  assert (∀ l' : list Z, t ∉ l' → filter (λ j, idx a' j = Some g) l'
                         = filter (λ j, idx a j = Some g) l') as Hsame.
  { induction l' as [|x l' IH]; [done|]. intros Hx.
    apply not_elem_of_cons in Hx as [Hxt Hx].
    rewrite !filter_cons, Hne by done. by rewrite IH. }
  induction Hnd as [|x l Hx Hnd IH]; [by apply elem_of_nil in Ht|].
  rewrite !filter_cons. intros Hnil.
  destruct (decide (idx a x = Some g)) as [|Hax]; [done|].
  destruct (decide (x = t)) as [->|Hxt].
  - rewrite decide_True by done. by rewrite Hsame, Hnil.
  - rewrite decide_False by (by rewrite Hne). apply IH; [|done].
    apply elem_of_cons in Ht as [?|?]; done.
Qed.

(** Check-in with a vacant table.  With [mutex] free and table [t] the
    first vacant one, [checkInAtReception id] returns without waiting on any
    semaphore but [mutex]: the group has posted its table request, has
    itself written its number into [assignedTable[t]] and has set its own
    state to [AT_TABLE]; if it was bound to no table before, [t] is now its
    one table.  The receptionist takes no part. *)
Theorem checkInAtReception_seats_itself (id t : Z) (w : world) :
  semval w mutex ≠ 0%nat →
  groupsWaiting (fSt w) ≠ INT_MAX →
  0 ≤ id < Z.of_nat (length (groupStat (st (fSt w)))) →
  0 ≤ t < NUMTABLES →
  idx (assignedTable (fSt w)) t = Some (-1) →
  (∀ j, 0 ≤ j < t → ∃ v, idx (assignedTable (fSt w)) j = Some v ∧ v ≠ -1) →
  ∃ w', exec (checkInAtReception id) w
        = Done (bool_decide (groupsWaiting (fSt w) = 0)) w'
    ∧ assignedTable (fSt w') = <[Z.to_nat t := id]> (assignedTable (fSt w))
    ∧ groupStat (st (fSt w'))
      = <[Z.to_nat id := AT_TABLE]> (groupStat (st (fSt w)))
    ∧ receptionistRequest (fSt w') = mkRequest TABLEREQ id
    ∧ (∀ s, semval w' s = semval w s)
    ∧ groupRecord w' = groupRecord w
    ∧ (tablesOf id w = [] → tablesOf id w' = [t]).
Proof.
  intros Hm Hgw Hid Ht Hvac Hocc.
  pose proof (idx_Some_range _ _ _ Hvac) as Hrt.
  destruct (semval w mutex) as [|v] eqn:Hv; [done|].
  unfold checkInAtReception. simpl. rewrite Hv. simpl. unfold incr. simpl.
  rewrite decide_False by done. simpl.
  rewrite (upd_Some _ id) by done. simpl.
  rewrite exec_bind.
  rewrite (seqZ_split t) by done.
  set (gs := groupStat (st (fSt w))) in *.
  set (ts := assignedTable (fSt w)) in *.
  rewrite (checkIn_scan_exec id _ _ t _ (<[Z.to_nat t := id]> ts)
             (<[Z.to_nat id := AT_TABLE]> (<[Z.to_nat id := ATRECEPTION]> gs)));
    simpl.
  - rewrite upd_Some by (by rewrite !length_insert). simpl.
    eexists. split; [reflexivity|]. simpl. split_and!; try done.
    + by rewrite !list_insert_insert_eq.
    + intros s. repeat case_decide; by subst.
    + unfold tablesOf. simpl. apply filter_bound_one.
      * apply NoDup_seqZ.
      * apply elem_of_seqZ. lia.
      * intros j Hj. by eapply idx_upd_ne; [apply upd_Some|].
      * by eapply idx_upd_eq, upd_Some.
  - apply Forall_seqZ. intros j Hj. apply Hocc. lia.
  - done.
  - by apply upd_Some.
  - apply upd_Some. by rewrite length_insert.
Qed.

End group.

(** ** The mutual exclusion discipline *)

Section discipline.
Context {K : ProbConst}.

Lemma disciplined_assoc {A B C} held (m : prog A) (h : A → prog B)
    (g : B → prog C) :
  disciplined held ((m ≫= h) ≫= g) → disciplined held (m ≫= λ a, h a ≫= g).
Proof.
  revert held. induction m as [a| |e k IH]; intros held; simpl; [done..|].
  intros [He Hk]. split; [done|]. intros z. apply IH, Hk.
Qed.

Lemma checkIn_scan_disciplined {A} id tables (f : bool → prog A) :
  (∀ b, disciplined true (f b)) →
  disciplined true (checkIn_scan id tables ≫= f).
Proof.
  intros Hf. induction tables as [|i ts IH]; simpl; [done|].
  split; [done|]. intros z. case_decide; simpl; [|done]. naive_solver.
Qed.

(** The increment of [groupsWaiting], like every other access of
    [checkInAtReception], is made with [mutex] held. *)
Lemma checkInAtReception_disciplined id :
  disciplined false (checkInAtReception id).
Proof.
  simpl. split; [done|]. intros _. split; [done|]. intros g.
  split; [done|]. intros g'. case_decide; simpl; [done|].
  do 4 (split; [done|]; intros _). split; [done|]. intros _.
  apply checkIn_scan_disciplined. intros []; simpl; naive_solver.
Qed.

Lemma orderFood_disciplined id : disciplined false (orderFood id).
Proof. simpl. naive_solver. Qed.

Lemma checkOutAtReception_disciplined id :
  disciplined false (checkOutAtReception id).
Proof. simpl. naive_solver. Qed.

Lemma informChef_disciplined n : disciplined false (informChef n).
Proof. simpl. naive_solver. Qed.

(** A scan that finds no group in [FOOD_REQUEST] goes on with [None]. *)
Lemma scanFoodRequest_disciplined {A} groups (f : option request → prog A) :
  disciplined true (scanFoodRequest groups ≫= f) → disciplined true (f None).
Proof.
  induction groups as [|i gs IH]; [done|].
  intros [_ Hk]. apply IH. specialize (Hk (FOOD_REQUEST + 1)).
  simpl in Hk. by rewrite decide_False in Hk by lia.
Qed.

(** C7. The code does not keep the discipline.  [waitFood] reads
    [assignedTable[id]] and [takeFoodToTable] reads [assignedTable[n]]
    after the [semUp] of [mutex]; a turn of [waitForClientOrChef] that
    finds no request writes [waiterStat] after the [semUp] of [mutex]. *)
Theorem mutex_discipline_broken (id : Z) (turns : nat) :
  ¬ disciplined false (waitFood id)
  ∧ ¬ disciplined false (takeFoodToTable id)
  ∧ ¬ disciplined false (waitForClientOrChef (S turns)).
Proof.
  split_and!.
  - simpl. intros (_ & H). specialize (H 0) as (_ & H).
    specialize (H 0) as (_ & H). specialize (H 0) as (_ & H).
    specialize (H 0) as (H & _). by specialize (H eq_refl).
  - simpl. intros (_ & H). specialize (H 0) as (_ & H).
    specialize (H 0) as (_ & H). specialize (H 0) as (_ & H).
    specialize (H 0) as (H & _). by specialize (H eq_refl).
  - intros H%disciplined_bind. simpl in H. destruct H as (_ & H).
    specialize (H 0). apply disciplined_assoc, scanFoodRequest_disciplined in H.
    simpl in H. destruct H as (_ & H). specialize (H (FOODREADY + 1)).
    rewrite decide_False in H by lia. simpl in H. destruct H as (_ & H).
    specialize (H 0) as (H & _). by specialize (H eq_refl).
Qed.

End discipline.

(** ** The waiter *)

Section waiter.
Context {K : ProbConst}.

Lemma scanFoodRequest_none w groups :
  no_order w groups → exec (scanFoodRequest groups) w = Done None w.
Proof.
  induction 1 as [|i gs (s & Hi & Hs) _ IH]; [done|].
  simpl. rewrite Hi. by rewrite decide_False.
Qed.

Lemma waitForClientOrChef_turn_none w v :
  semval w mutex = S v →
  no_order w (seqZ 0 MAXGROUPS) →
  chefStat (st (fSt w)) ≠ FOODREADY →
  exec waitForClientOrChef_turn w
  = Done None (set_semval mutex (S v) (set_semval mutex v w)).
Proof.
  intros Hv Hg Hc. unfold waitForClientOrChef_turn.
  rewrite exec_bind. simpl. rewrite Hv.
  rewrite exec_bind, scanFoodRequest_none by done.
  simpl. by rewrite decide_False.
Qed.

Lemma waitForClientOrChef_loop_spins turns w :
  semval w mutex ≠ 0%nat →
  no_order w (seqZ 0 MAXGROUPS) →
  chefStat (st (fSt w)) ≠ FOODREADY →
  ∃ w', exec (waitForClientOrChef_loop turns) w = Done None w'
        ∧ same_but_waiterStat (fSt w) (fSt w')
        ∧ (∀ s, semval w' s = semval w s)
        ∧ groupRecord w' = groupRecord w.
Proof.
  revert w. induction turns as [|turns IH]; intros w Hm Hg Hc.
  { exists w. split_and!; try done. by destruct w as [[[]]]. }
  destruct (semval w mutex) as [|v] eqn:Hv; [done|].
  cbn [waitForClientOrChef_loop].
  rewrite exec_bind, (waitForClientOrChef_turn_none w v) by done.
  simpl.
  set (w1 := set_fSt _ _).
  destruct (IH w1) as (w' & He & Hf & Hs & Hr); [done..|].
  exists w'. split; [done|]. split_and!.
  - unfold same_but_waiterStat in *. rewrite Hf. by destruct w as [[[]]].
  - intros s. rewrite Hs. simpl. repeat case_decide; by subst.
  - by rewrite Hr.
Qed.

(** The waiter waits on no semaphore but [mutex]. *)
Lemma scanFoodRequest_acts (P : act → Prop) groups :
  (∀ l, P (Load l)) → (∀ i v, P (Store (LgroupStat i) v)) →
  all_acts P (scanFoodRequest groups).
Proof.
  intros Hl Hs. induction groups as [|i gs IH]; simpl; [done|].
  split; [done|]. intros z. case_decide; by simpl.
Qed.

Lemma waitForClientOrChef_acts (P : act → Prop) turns :
  P (Down mutex) → P (Up mutex) → P (Up waiterRequestPossible) →
  (∀ l, P (Load l)) →
  (∀ i v, P (Store (LgroupStat i) v)) →
  (∀ v, P (Store LwaiterStat v)) →
  all_acts P (waitForClientOrChef turns).
Proof.
  intros Hd Hu Hp Hl Hs Hw.
  apply all_acts_bind; [|by intros [req|]].
  induction turns as [|turns IH]; [done|].
  apply all_acts_bind; [|intros [req|]; [done|by split]].
  apply all_acts_bind; [done|intros _].
  apply all_acts_bind; [by apply scanFoodRequest_acts|intros found].
  apply all_acts_bind; [|done].
  destruct found; [done|]. split; [done|]. intros c. simpl.
  case_decide; by simpl.
Qed.

Lemma waitForClientOrChef_waits_on_mutex_only turns :
  all_acts waits_on_mutex_only (waitForClientOrChef turns).
Proof. by apply waitForClientOrChef_acts. Qed.

(** C8. The code departs from the specification.  With [mutex] free, no
    group in [FOOD_REQUEST] and the chef not in [FOODREADY],
    [waitForClientOrChef] completes any number of turns of its loop
    without stopping on a semaphore and without a request: each turn takes
    and releases [mutex], scans, and writes [waiterStat]; nothing else
    changes, so the next turn finds the same. *)
Theorem waitForClientOrChef_spins (turns : nat) (w : world) :
  semval w mutex ≠ 0%nat →
  no_order w (seqZ 0 MAXGROUPS) →
  chefStat (st (fSt w)) ≠ FOODREADY →
  ∃ w', exec (waitForClientOrChef turns) w = Done None w'
        ∧ same_but_waiterStat (fSt w) (fSt w')
        ∧ (∀ s, semval w' s = semval w s)
        ∧ groupRecord w' = groupRecord w.
Proof.
  intros Hm Hg Hc.
  destruct (waitForClientOrChef_loop_spins turns w) as (w' & He & H'); try done.
  exists w'. split; [|done].
  unfold waitForClientOrChef. by rewrite exec_bind, He.
Qed.

End waiter.

(** ** The counter of waiting groups *)

Section counter.
Context {K : ProbConst}.

Lemma not_store_groupsWaiting_step e w z w' :
  not_store_groupsWaiting e → perform e w = Ok z w' →
  groupsWaiting (fSt w') = groupsWaiting (fSt w).
Proof.
  destruct e as [s|s|l|l v|]; simpl; intros He Hp.
  - destruct (semval w s); by simplify_eq.
  - by simplify_eq.
  - destruct (read l w); by simplify_eq.
  - destruct (write l v w) as [w1|] eqn:Hw; [|done]. injection Hp as <- <-.
    destruct l; simpl in Hw; simplify_option_eq; done.
  - by simplify_eq.
Qed.

Lemma groupsWaiting_kept {A} (p : prog A) w :
  all_acts not_store_groupsWaiting p →
  groupsWaiting (fSt (world_of (exec p w))) = groupsWaiting (fSt w).
Proof.
  intros Hp.
  apply (exec_all_acts not_store_groupsWaiting
           (λ w w', groupsWaiting (fSt w') = groupsWaiting (fSt w))); try done.
  - intros w1 w2 w3 H12 H23. by rewrite H23.
  - intros e w1 z w2. apply not_store_groupsWaiting_step.
Qed.

Lemma checkIn_scan_acts (P : act → Prop) id tables :
  (∀ l, P (Load l)) →
  (∀ i v, P (Store (LassignedTable i) v)) →
  (∀ i v, P (Store (LgroupStat i) v)) →
  all_acts P (checkIn_scan id tables).
Proof.
  intros Hl Ha Hs. induction tables as [|i ts IH]; simpl; [done|].
  split; [done|]. intros z. case_decide; by simpl.
Qed.

Lemma checkInAtReception_groupsWaiting id w :
  let o := exec (checkInAtReception id) w in
  (groupsWaiting (fSt (world_of o)) = groupsWaiting (fSt w)
   ∧ ∀ b w1, o ≠ Done b w1)
  ∨ groupsWaiting (fSt (world_of o)) = groupsWaiting (fSt w) + 1.
Proof.
  unfold checkInAtReception. simpl.
  destruct (semval w mutex) as [|v]; simpl; [by left|].
  destruct (decide (groupsWaiting (fSt w) = INT_MAX)); simpl; [by left|].
  right.
  destruct (upd _ id _) as [a|]; simpl; [|done].
  rewrite groupsWaiting_kept; [done|].
  apply all_acts_bind; [by apply checkIn_scan_acts|intros b].
  apply all_acts_bind; [by destruct b|done].
Qed.

Lemma code_acts o :
  (∀ id, o ≠ CheckInAtReception id) →
  all_acts not_store_groupsWaiting (code o).
Proof.
  intros Ho.
  destruct o as [id|id|id|id| |n|n|turns|n|n];
    try (simpl;
         repeat first [split|intro|progress unfold sh_foodArrived
                      |case_decide; simpl]; done).
  - by destruct (Ho id).
  - apply (all_acts_mono (provideTable_act n));
      [|apply provideTableOrWaitingRoom_acts].
    intros [| |l|l v|]; simpl; try done. by intros [-> | ->].
  - by apply receivePayment_acts.
  - apply all_acts_bind; [by apply waitForClientOrChef_acts|done].
Qed.

(** The counter only grows.  No operation of any actor lowers
    [groupsWaiting], wherever its run gets to: [checkInAtReception] adds
    one to it once it is past [mutex] (on every run that returns, and with
    [mutex] held), and the other operations, those that seat a group
    included, leave it as it is.  Nonnegative at the start, it is
    nonnegative after. *)
Theorem groupsWaiting_only_grows (o : operation) (w : world) :
  0 ≤ groupsWaiting (fSt w) →
  let w' := world_of (exec (code o) w) in
  0 ≤ groupsWaiting (fSt w')
  ∧ (groupsWaiting (fSt w') = groupsWaiting (fSt w)
     ∨ (∃ id, o = CheckInAtReception id)
       ∧ groupsWaiting (fSt w') = groupsWaiting (fSt w) + 1)
  ∧ (∀ id w1, o = CheckInAtReception id → exec (code o) w = Done tt w1 →
       groupsWaiting (fSt w1) = groupsWaiting (fSt w) + 1)
  ∧ (∀ id, disciplined false (checkInAtReception id)).
Proof.
  intros H0. simpl.
  cut (0 ≤ groupsWaiting (fSt (world_of (exec (code o) w)))
       ∧ (groupsWaiting (fSt (world_of (exec (code o) w)))
          = groupsWaiting (fSt w)
          ∨ (∃ id, o = CheckInAtReception id)
            ∧ groupsWaiting (fSt (world_of (exec (code o) w)))
              = groupsWaiting (fSt w) + 1)
       ∧ (∀ id w1, o = CheckInAtReception id → exec (code o) w = Done tt w1 →
            groupsWaiting (fSt w1) = groupsWaiting (fSt w) + 1)).
  { intros (? & ? & ?). split_and!; try done.
    apply checkInAtReception_disciplined. }
  assert (groupsWaiting (fSt (world_of (exec (code o) w)))
          = groupsWaiting (fSt w)
          ∧ (∀ id w1, o = CheckInAtReception id → exec (code o) w ≠ Done tt w1)
          ∨ (∃ id, o = CheckInAtReception id)
            ∧ groupsWaiting (fSt (world_of (exec (code o) w)))
              = groupsWaiting (fSt w) + 1) as [[He Hn]|[Hid He]].
  { assert ((∃ id, o = CheckInAtReception id)
            ∨ ∀ id, o ≠ CheckInAtReception id) as [[id ->]|Ho].
    { destruct o; (by left; eexists) || by right. }
    - change (code (CheckInAtReception id))
        with (checkInAtReception id ≫= λ _, mret tt).
      rewrite exec_bind.
      pose proof (checkInAtReception_groupsWaiting id w) as Hc. cbv zeta in Hc.
      destruct (exec (checkInAtReception id) w) as [b w1|s p w1|w1];
        simpl in *; (destruct Hc as [[He Hn]|He]; [left|right; by eauto]);
        (split; [done|]); try done.
      by destruct (Hn b w1).
    - left. split; [|naive_solver]. apply groupsWaiting_kept, code_acts.
      naive_solver. }
  - rewrite He. split_and!; [done|by left|]. intros id w1 Ho Hx.
    by destruct (Hn id w1).
  - rewrite He. split_and!; [lia|by right|]. intros id w1 Ho Hx.
    rewrite Hx in He. done.
Qed.

End counter.

(** ** The acknowledgement of a checkout *)

Section acknowledgement.
Context {K : ProbConst}.

Lemma code_no_tableDone_signal o : all_acts no_tableDone_signal (code o).
Proof.
  destruct o as [id|id|id|id| |n|n|turns|n|n];
    try (simpl;
         repeat first [split|intro|progress unfold sh_foodArrived
                      |case_decide; simpl]; done).
  - apply all_acts_bind; [|done]. unfold checkInAtReception.
    apply all_acts_bind; [done|intros _].
    apply all_acts_bind; [done|intros g].
    apply all_acts_bind; [|intros _].
    { split; [done|]. intros v. simpl. by case_decide. }
    do 4 (apply all_acts_bind; [done|intros _]).
    apply all_acts_bind; [by apply checkIn_scan_acts|intros b].
    apply all_acts_bind; [by destruct b|done].
  - apply (all_acts_mono (provideTable_act n));
      [|apply provideTableOrWaitingRoom_acts].
    intros [s|s|l|l v|]; simpl; try done. by intros [-> | ->].
  - by apply receivePayment_acts.
  - apply all_acts_bind; [by apply waitForClientOrChef_acts|done].
Qed.

Lemma no_tableDone_signal_step e w z w' g :
  no_tableDone_signal e → perform e w = Ok z w' →
  (semval w' (tableDone g) ≤ semval w (tableDone g))%nat.
Proof.
  destruct e as [s|s|l|l v|]; simpl; intros He Hp.
  - destruct (semval w s) eqn:Hs; [done|]. injection Hp as <- <-. simpl.
    case_decide; [subst; lia|done].
  - injection Hp as <- <-. simpl.
    rewrite decide_False; [done|]. by intros <-.
  - destruct (read l w); by simplify_eq.
  - destruct (write l v w) as [w1|] eqn:Hw; [|done]. injection Hp as <- <-.
    destruct l; simpl in Hw; simplify_option_eq; done.
  - by simplify_eq.
Qed.

(** However the operations of groups, receptionist and waiter are
    interleaved, no [tableDone] semaphore ever gets a unit: at zero it
    stays at zero, and a group in front of it stays there. *)
Lemma tableDone_never_signaled (ops : list operation) ps' w w' g :
  rtc step (code <$> ops, w) (ps', w') →
  (semval w' (tableDone g) ≤ semval w (tableDone g))%nat.
Proof.
  intros Hrtc.
  apply (steps_all_acts no_tableDone_signal
           (λ w w', (semval w' (tableDone g) ≤ semval w (tableDone g))%nat))
    in Hrtc as [? _]; try done.
  - intros w1 w2 w3 ??. lia.
  - intros e w1 z w2. apply no_tableDone_signal_step.
  - apply Forall_fmap, Forall_forall. intros o _. apply code_no_tableDone_signal.
Qed.

End acknowledgement.

(** ** Runs on sample worlds *)

(** Group 1 of three has posted its table request; the receptionist's
    [waitForGroup] then returns [{0, 0}] and the request stays posted. *)
Lemma waitForGroup_ignores_mailbox_witness :
  let K := consts 3 1 in
  let w := world_of (exec (checkInAtReception 1) (start 3 1)) in
  receptionistRequest (fSt w) = mkRequest TABLEREQ 1
  ∧ semval w mutex ≠ 0%nat
  ∧ ∃ w', exec waitForGroup w = Done (mkRequest 0 0) w'
          ∧ receptionistRequest (fSt w') = mkRequest TABLEREQ 1.
Proof.
  intros K w. split; [reflexivity|]. split; [by vm_compute|].
  destruct (waitForGroup_ignores_mailbox w) as (w' & He & Hf & _).
  - by vm_compute.
  - exists w'. split; [exact He|]. rewrite Hf. reflexivity.
Defined.


(** One table, three groups.  The receptionist handles the table request
    of group 1 on the empty restaurant: it records the group [ATTABLE] and
    signals [waitForTable[1]], and [assignedTable] still has its table
    vacant. *)
Lemma provideTableOrWaitingRoom_run :
  let K := consts 3 1 in
  ∃ w', exec (provideTableOrWaitingRoom 1) (start 3 1) = Done tt w'
    ∧ receptionistStat (st (fSt w')) = ASSIGNTABLE
    ∧ groupRecord w' = [TOARRIVE; ATTABLE; TOARRIVE]
    ∧ semval w' (waitForTable 1) = 1%nat
    ∧ assignedTable (fSt w') = [-1].
Proof. intros K. eexists. by vm_compute. Qed.

(** One table, three groups.  Group 0, seated, checks out and stops in
    front of [tableDone[0]]; the receptionist runs [receivePayment 0]; the
    rest of the group's program still stops in front of [tableDone[0]]. *)
Lemma checkOutAtReception_not_acknowledged :
  let K := consts 3 1 in
  let w := world_of (exec (checkInAtReception 0) (start 3 1)) in
  ∃ p w1, exec (checkOutAtReception 0) w = Blocked (tableDone 0) p w1
    ∧ ∃ p' w2, exec p (world_of (exec (receivePayment 0) w1))
               = Blocked (tableDone 0) p' w2.
Proof.
  intros K w. eexists _, _. split; [vm_compute; reflexivity|].
  eexists _, _. vm_compute. reflexivity.
Qed.

(** Groups 1, 2 and 0 sit at tables 0, 1 and 2.  When group 0 pays, the
    receptionist vacates table 1, where group 2 sits; table 2 stays bound
    to group 0. *)
Lemma receivePayment_frees_by_group_index_witness :
  let K := consts 3 3 in
  let w' := world_of (exec (receivePayment 0) threeSeated) in
  assignedTable (fSt threeSeated) = [1; 2; 0]
  ∧ idx (assignedTable (fSt w')) 2 = Some 0
  ∧ idx (assignedTable (fSt w')) 1 = Some (-1)
  ∧ idx (groupRecord w') 0 = Some DONE.
Proof.
  intros K w'. split; [reflexivity|].
  apply (receivePayment_frees_by_group_index (K:=K) 0 2 1 threeSeated);
    by vm_compute.
Defined.

(** One table, three groups: group 0 sits, groups 1 and 2 are recorded
    [WAIT].  When group 0 pays, the receptionist stops in front of [mutex];
    group 1 is not seated. *)
Lemma receivePayment_stops_before_handoff_witness :
  let K := consts 3 1 in
  assignedTable (fSt oneTable) = [0]
  ∧ groupRecord oneTable = [WAIT; WAIT; WAIT]
  ∧ ∃ p w', exec (receivePayment 0) oneTable = Blocked mutex p w'
      ∧ semval w' mutex = 0%nat
      ∧ idx (assignedTable (fSt w')) 0 = Some (-1)
      ∧ idx (groupRecord w') 1 = Some WAIT
      ∧ groupStat (st (fSt w')) = groupStat (st (fSt oneTable))
      ∧ semval w' (waitForTable 1) = semval oneTable (waitForTable 1).
Proof.
  intros K. split; [reflexivity|]. split; [reflexivity|].
  apply (receivePayment_stops_before_handoff (K:=K) 0 0 1 oneTable);
    by vm_compute.
Defined.

(** C4. The code does not keep the invariant.  Groups 1, 2 and 0 sit at
    tables 0, 1 and 2 and the invariant holds; [receivePayment 0] vacates
    table 1 (see C5), and where it stops group 2, still [AT_TABLE], is
    bound to no table. *)
Theorem receivePayment_breaks_table_inv :
  let K := consts 3 3 in
  let w' := world_of (exec (receivePayment 0) threeSeated) in
  table_inv threeSeated = true
  ∧ table_inv w' = false
  ∧ idx (groupStat (st (fSt w'))) 2 = Some AT_TABLE
  ∧ tablesOf 2 w' = [].
Proof. by vm_compute. Qed.

(** Before any group has ordered, the waiter's loop makes five turns (or
    any other number) and is still looking. *)
Lemma waitForClientOrChef_spins_witness :
  let K := consts 3 1 in
  semval (start 3 1) mutex ≠ 0%nat
  ∧ ∃ w', exec (waitForClientOrChef 5) (start 3 1) = Done None w'
          ∧ same_but_waiterStat (fSt (start 3 1)) (fSt w')
          ∧ (∀ s, semval w' s = semval (start 3 1) s)
          ∧ groupRecord w' = groupRecord (start 3 1).
Proof.
  intros K. split; [by vm_compute|].
  apply (waitForClientOrChef_spins (K:=K) 5 (start 3 1)).
  - by vm_compute.
  - repeat constructor; by eexists.
  - by vm_compute.
Defined.

(** C3. The code departs from the specification.  One table, three
    groups.  Group 0 checks in on the empty restaurant: its own run writes
    [assignedTable[0] = 0], and no receptionist has run.  Group 1 checks
    in next: its run returns as well, at once, without a wait on
    [waitForTable[1]], and leaves group 1 in state [WAITING], bound to no
    table. *)
Theorem checkInAtReception_returns_unseated :
  let K := consts 3 1 in
  ∃ b0 w1 b1 w2,
    exec (checkInAtReception 0) (start 3 1) = Done b0 w1
    ∧ assignedTable (fSt (start 3 1)) = [-1]
    ∧ assignedTable (fSt w1) = [0]
    ∧ exec (checkInAtReception 1) w1 = Done b1 w2
    ∧ idx (groupStat (st (fSt w2))) 1 = Some WAITING
    ∧ tablesOf 1 w2 = []
    ∧ semval w2 (waitForTable 1) = semval w1 (waitForTable 1).
Proof. intros K. eexists _, _, _, _. by vm_compute. Qed.

(** Three tables, groups 1 and 2 seated at tables 0 and 1: group 0 takes
    table 2, the first vacant one. *)
Lemma checkInAtReception_seats_itself_witness :
  let K := consts 3 3 in
  let w := run [code (CheckInAtReception 1); code (CheckInAtReception 2)]
               (start 3 3) in
  assignedTable (fSt w) = [1; 2; -1]
  ∧ ∃ w', exec (checkInAtReception 0) w
          = Done (bool_decide (groupsWaiting (fSt w) = 0)) w'
      ∧ assignedTable (fSt w') = <[Z.to_nat 2 := 0]> (assignedTable (fSt w))
      ∧ groupStat (st (fSt w'))
        = <[Z.to_nat 0 := AT_TABLE]> (groupStat (st (fSt w)))
      ∧ receptionistRequest (fSt w') = mkRequest TABLEREQ 0
      ∧ (∀ s, semval w' s = semval w s)
      ∧ groupRecord w' = groupRecord w
      ∧ (tablesOf 0 w = [] → tablesOf 0 w' = [2]).
Proof.
  intros K w. split; [reflexivity|].
  apply (checkInAtReception_seats_itself (K:=K) 0 2 w); try by vm_compute.
  intros j Hj. assert (j = 0 ∨ j = 1) as [-> | ->] by lia; by eexists.
Defined.

(** C9. The code departs from the specification.  One table, three
    groups: group 0 checks in and is seated at once.  No group is at the
    reception or waiting, and [groupsWaiting] is 1: nothing in the three
    files takes the seated group off the count. *)
Theorem groupsWaiting_counts_seated_group :
  let K := consts 3 1 in
  ∃ b w1, exec (checkInAtReception 0) (start 3 1) = Done b w1
    ∧ idx (groupStat (st (fSt w1))) 0 = Some AT_TABLE
    ∧ tablesOf 0 w1 = [0]
    ∧ checkedInNotSeated w1 = 0
    ∧ groupsWaiting (fSt w1) = 1.
Proof. intros K. eexists _, _. by vm_compute. Qed.

(** The check-in of group 0 on the empty restaurant. *)
Lemma groupsWaiting_only_grows_witness :
  let K := consts 3 1 in
  let o := CheckInAtReception 0 in
  let w := start 3 1 in
  let w' := world_of (exec (code o) w) in
  0 ≤ groupsWaiting (fSt w)
  ∧ 0 ≤ groupsWaiting (fSt w')
  ∧ (groupsWaiting (fSt w') = groupsWaiting (fSt w)
     ∨ (∃ id, o = CheckInAtReception id)
       ∧ groupsWaiting (fSt w') = groupsWaiting (fSt w) + 1)
  ∧ (∀ id w1, o = CheckInAtReception id → exec (code o) w = Done tt w1 →
       groupsWaiting (fSt w1) = groupsWaiting (fSt w) + 1)
  ∧ (∀ id, disciplined false (checkInAtReception id)).
Proof.
  intros K o w w'. split; [by vm_compute|].
  apply (groupsWaiting_only_grows (K:=K) o w). by vm_compute.
Defined.

(** ** More on the receptionist: the choice of a table *)

Section tables.
Context {K : ProbConst}.

Lemma idx_in_range (a : list Z) (i : Z) :
  0 ≤ i < Z.of_nat (length a) → ∃ v, idx a i = Some v.
Proof.
  intros Hi. unfold idx. rewrite decide_True by lia.
  apply lookup_lt_is_Some_2. lia.
Qed.

(** The first loop of [decideTableOrWait] only counts: at most one per
    table, and one for every table only if every entry is 1. *)
Lemma countOccupied_exec w tables k :
  Forall (λ j, is_Some (idx (assignedTable (fSt w)) j)) tables →
  ∃ c, exec (countOccupied tables k) w = Done c w
       ∧ k ≤ c ≤ k + Z.of_nat (length tables)
       ∧ (c = k + Z.of_nat (length tables) →
          Forall (λ j, idx (assignedTable (fSt w)) j = Some 1) tables).
Proof.
  intros Hr. revert k. induction Hr as [|j l [v Hj] _ IH]; intros k.
  { exists k. simpl. split_and!; [done|lia|lia|done]. }
  simpl. rewrite Hj.
  destruct (IH (if decide (v = 1) then k + 1 else k)) as (c & -> & Hc & Hall).
  exists c. split; [done|]. simpl length. case_decide; (split; [lia|]).
  - intros Hk. constructor; [by subst|]. apply Hall. lia.
  - intros Hk. lia.
Qed.

Lemma firstVacant_exec w pre t post :
  Forall (λ j, ∃ v, idx (assignedTable (fSt w)) j = Some v ∧ v ≠ -1) pre →
  idx (assignedTable (fSt w)) t = Some (-1) →
  exec (firstVacant (pre ++ t :: post)) w = Done t w.
Proof.
  intros Hpre Ht. induction Hpre as [|j pre (v & Hj & Hv) _ IH]; simpl.
  - rewrite Ht. by rewrite decide_True.
  - rewrite Hj. by rewrite decide_False.
Qed.

Lemma firstVacant_none w tables :
  Forall (λ j, ∃ v, idx (assignedTable (fSt w)) j = Some v ∧ v ≠ -1) tables →
  exec (firstVacant tables) w = Done (-1) w.
Proof.
  induction 1 as [|j l (v & Hj & Hv) _ IH]; simpl; [done|].
  rewrite Hj. by rewrite decide_False.
Qed.

Lemma decideTableOrWait_exec_vacant (n t : Z) (w : world) :
  NUMTABLES ≤ Z.of_nat (length (assignedTable (fSt w))) →
  0 ≤ t < NUMTABLES →
  idx (assignedTable (fSt w)) t = Some (-1) →
  (∀ j, 0 ≤ j < t → ∃ v, idx (assignedTable (fSt w)) j = Some v ∧ v ≠ -1) →
  exec (decideTableOrWait n) w = Done t w.
Proof.
  intros Hlen Ht Hvac Hocc. unfold decideTableOrWait. rewrite exec_bind.
  destruct (countOccupied_exec w (seqZ 0 NUMTABLES) 0) as (c & -> & Hc & Hall).
  { apply Forall_seqZ. intros j Hj.
    destruct (idx_in_range (assignedTable (fSt w)) j) as [v Hv]; [lia|].
    by exists v. }
  rewrite length_seqZ, Z2Nat.id in Hc, Hall by lia.
  case_decide as Hfull.
  - apply Hall in Hfull.
    rewrite Forall_seqZ in Hfull. specialize (Hfull t ltac:(lia)).
    by rewrite Hvac in Hfull.
  - rewrite (seqZ_split t) by done. apply firstVacant_exec; [|done].
    apply Forall_seqZ. intros j Hj. apply Hocc. lia.
Qed.

Lemma decideTableOrWait_exec_full (n : Z) (w : world) :
  (∀ j, 0 ≤ j < NUMTABLES →
        ∃ v, idx (assignedTable (fSt w)) j = Some v ∧ v ≠ -1) →
  exec (decideTableOrWait n) w = Done (-1) w.
Proof.
  intros Hocc. unfold decideTableOrWait. rewrite exec_bind.
  destruct (countOccupied_exec w (seqZ 0 NUMTABLES) 0) as (c & -> & _).
  { apply Forall_seqZ. intros j Hj. destruct (Hocc j) as (v & Hv & _); [lia|].
    by exists v. }
  case_decide; [done|]. apply firstVacant_none.
  apply Forall_seqZ. intros j Hj. apply Hocc. lia.
Qed.

(** [decideTableOrWait] answers with the lowest vacant table, whatever
    the other tables hold (the count of its first loop does not matter),
    and changes nothing. *)
Theorem decideTableOrWait_lowest_vacant (n t : Z) (w : world) :
  NUMTABLES ≤ Z.of_nat (length (assignedTable (fSt w))) →
  0 ≤ t < NUMTABLES →
  idx (assignedTable (fSt w)) t = Some (-1) →
  (∀ j, 0 ≤ j < t → ∃ v, idx (assignedTable (fSt w)) j = Some v ∧ v ≠ -1) →
  exec (decideTableOrWait n) w = Done t w.
Proof. apply decideTableOrWait_exec_vacant. Qed.

(** With no vacant table among the [NUMTABLES] first (none at all when
    [NUMTABLES] is not positive) the answer is -1, and nothing changes. *)
Theorem decideTableOrWait_no_vacant (n : Z) (w : world) :
  (∀ j, 0 ≤ j < NUMTABLES →
        ∃ v, idx (assignedTable (fSt w)) j = Some v ∧ v ≠ -1) →
  exec (decideTableOrWait n) w = Done (-1) w.
Proof. apply decideTableOrWait_exec_full. Qed.

(** With [mutex] free and a vacant table, [provideTableOrWaitingRoom n]
    returns: the receptionist is in state [ASSIGNTABLE], group [n] is
    recorded [ATTABLE] and [waitForTable[n]] has one unit more.  The rest
    of the shared region, [assignedTable] included, is as before: the
    table is not written to. *)
Theorem provideTableOrWaitingRoom_signals (n t : Z) (w : world) :
  semval w mutex ≠ 0%nat →
  NUMTABLES ≤ Z.of_nat (length (assignedTable (fSt w))) →
  0 ≤ t < NUMTABLES →
  idx (assignedTable (fSt w)) t = Some (-1) →
  (∀ j, 0 ≤ j < t → ∃ v, idx (assignedTable (fSt w)) j = Some v ∧ v ≠ -1) →
  0 ≤ n < Z.of_nat (length (groupRecord w)) →
  ∃ w', exec (provideTableOrWaitingRoom n) w = Done tt w'
    ∧ fSt w' = set_st (set_receptionistStat ASSIGNTABLE) (fSt w)
    ∧ groupRecord w' = <[Z.to_nat n := ATTABLE]> (groupRecord w)
    ∧ ∀ s, semval w' s = if decide (s = waitForTable n)
                         then S (semval w s) else semval w s.
Proof.
  intros Hm Hlen Ht Hvac Hocc Hn.
  destruct (semval w mutex) as [|v] eqn:Hv; [done|].
  unfold provideTableOrWaitingRoom. rewrite exec_bind. simpl. rewrite Hv.
  rewrite exec_bind, (decideTableOrWait_exec_vacant n t) by done.
  rewrite decide_True by lia. simpl.
  rewrite (upd_Some _ n) by done. simpl.
  eexists. split; [reflexivity|]. simpl. split_and!; try done.
  intros s. repeat case_decide; by subst.
Qed.

(** With [mutex] free and no vacant table, [provideTableOrWaitingRoom n]
    returns as well: the receptionist is in state [WAIT], group [n] is
    recorded [WAIT], and no semaphore has changed. *)
Theorem provideTableOrWaitingRoom_records_wait (n : Z) (w : world) :
  semval w mutex ≠ 0%nat →
  (∀ j, 0 ≤ j < NUMTABLES →
        ∃ v, idx (assignedTable (fSt w)) j = Some v ∧ v ≠ -1) →
  0 ≤ n < Z.of_nat (length (groupRecord w)) →
  ∃ w', exec (provideTableOrWaitingRoom n) w = Done tt w'
    ∧ fSt w' = set_st (set_receptionistStat WAIT) (fSt w)
    ∧ groupRecord w' = <[Z.to_nat n := WAIT]> (groupRecord w)
    ∧ ∀ s, semval w' s = semval w s.
Proof.
  intros Hm Hocc Hn.
  destruct (semval w mutex) as [|v] eqn:Hv; [done|].
  unfold provideTableOrWaitingRoom. rewrite exec_bind. simpl. rewrite Hv.
  rewrite exec_bind, (decideTableOrWait_exec_full n) by done.
  rewrite decide_False by lia. simpl.
  rewrite (upd_Some _ n) by done. simpl.
  eexists. split; [reflexivity|]. simpl. split_and!; try done.
  intros s. repeat case_decide; by subst.
Qed.

Lemma firstWaiting_none w groups :
  Forall (λ j, ∃ r, idx (groupRecord w) j = Some r ∧ r ≠ WAIT) groups →
  exec (firstWaiting groups) w = Done (-1) w.
Proof.
  induction 1 as [|j l (r & Hj & Hr) _ IH]; simpl; [done|].
  rewrite Hj. by rewrite decide_False.
Qed.

(** With [mutex] free, [decideNextGroup] returns the lowest group recorded
    [WAIT], records it [ATTABLE] and sets its state to [AT_TABLE]; nothing
    else changes and [mutex] is free again. *)
Theorem decideNextGroup_lowest_waiting (g : Z) (w : world) :
  semval w mutex ≠ 0%nat →
  0 ≤ g < MAXGROUPS →
  idx (groupRecord w) g = Some WAIT →
  (∀ j, 0 ≤ j < g → ∃ r, idx (groupRecord w) j = Some r ∧ r ≠ WAIT) →
  0 ≤ g < Z.of_nat (length (groupStat (st (fSt w)))) →
  ∃ w', exec decideNextGroup w = Done g w'
    ∧ fSt w' = set_st (set_groupStat
                         (<[Z.to_nat g := AT_TABLE]> (groupStat (st (fSt w)))))
                      (fSt w)
    ∧ groupRecord w' = <[Z.to_nat g := ATTABLE]> (groupRecord w)
    ∧ ∀ s, semval w' s = semval w s.
Proof.
  intros Hm Hg Hw Hlow Hgs.
  pose proof (idx_Some_range _ _ _ Hw) as Hgr.
  destruct (semval w mutex) as [|v] eqn:Hv; [done|].
  unfold decideNextGroup. rewrite exec_bind. simpl. rewrite Hv.
  rewrite exec_bind, (firstWaiting_lowest _ g) by done.
  rewrite decide_True by lia. simpl.
  rewrite (upd_Some _ g) by done. simpl.
  rewrite (upd_Some _ g) by done. simpl.
  eexists. split; [reflexivity|]. simpl. split_and!; try done.
  intros s. repeat case_decide; by subst.
Qed.

(** With [mutex] free and no group recorded [WAIT], [decideNextGroup]
    returns -1 and changes nothing. *)
Theorem decideNextGroup_nobody_waiting (w : world) :
  semval w mutex ≠ 0%nat →
  (∀ j, 0 ≤ j < MAXGROUPS → ∃ r, idx (groupRecord w) j = Some r ∧ r ≠ WAIT) →
  ∃ w', exec decideNextGroup w = Done (-1) w'
    ∧ fSt w' = fSt w
    ∧ groupRecord w' = groupRecord w
    ∧ ∀ s, semval w' s = semval w s.
Proof.
  intros Hm Hnone.
  destruct (semval w mutex) as [|v] eqn:Hv; [done|].
  unfold decideNextGroup. rewrite exec_bind. simpl. rewrite Hv.
  rewrite exec_bind, firstWaiting_none.
  - simpl. eexists. split; [reflexivity|]. simpl. split_and!; try done.
    intros s. repeat case_decide; by subst.
  - apply Forall_seqZ. intros j Hj. apply Hnone. lia.
Qed.

End tables.

(** ** More on the waiter *)

Section orders.
Context {K : ProbConst}.

Lemma scanFoodRequest_found w pre g post :
  Forall (λ i, ∃ s, idx (groupStat (st (fSt w))) i = Some s ∧ s ≠ FOOD_REQUEST)
         pre →
  idx (groupStat (st (fSt w))) g = Some FOOD_REQUEST →
  exec (scanFoodRequest (pre ++ g :: post)) w
  = Done (Some (mkRequest FOODREQ g))
         (set_fSt (set_st (set_groupStat
                     (<[Z.to_nat g := WAIT_FOR_FOOD]> (groupStat (st (fSt w))))))
                  w).
Proof.
  intros Hpre Hg. pose proof (idx_Some_range _ _ _ Hg) as Hr.
  induction Hpre as [|j pre (v & Hj & Hv) _ IH]; simpl.
  - rewrite Hg. rewrite decide_True by done. simpl.
    by rewrite (upd_Some _ g).
  - rewrite Hj. by rewrite decide_False.
Qed.

(** With [mutex] free, [waitForClientOrChef] returns in its first turn the
    food request of the lowest group in state [FOOD_REQUEST], whatever the
    state of the chef: the group is moved to [WAIT_FOR_FOOD] and
    [waiterRequestPossible] gets one unit. *)
Theorem waitForClientOrChef_lowest_order (turns : nat) (g : Z) (w : world) :
  semval w mutex ≠ 0%nat →
  0 ≤ g < MAXGROUPS →
  idx (groupStat (st (fSt w))) g = Some FOOD_REQUEST →
  (∀ j, 0 ≤ j < g →
        ∃ s, idx (groupStat (st (fSt w))) j = Some s ∧ s ≠ FOOD_REQUEST) →
  ∃ w', exec (waitForClientOrChef (S turns)) w
        = Done (Some (mkRequest FOODREQ g)) w'
    ∧ fSt w' = set_st (set_groupStat
                         (<[Z.to_nat g := WAIT_FOR_FOOD]>
                            (groupStat (st (fSt w))))) (fSt w)
    ∧ groupRecord w' = groupRecord w
    ∧ ∀ s, semval w' s = if decide (s = waiterRequestPossible)
                         then S (semval w s) else semval w s.
Proof.
  intros Hm Hg Hreq Hlow.
  destruct (semval w mutex) as [|v] eqn:Hv; [done|].
  unfold waitForClientOrChef. rewrite exec_bind.
  cbn [waitForClientOrChef_loop]. rewrite exec_bind.
  unfold waitForClientOrChef_turn. rewrite exec_bind. simpl. rewrite Hv.
  rewrite exec_bind, (seqZ_split g) by done.
  rewrite scanFoodRequest_found; [|by apply Forall_seqZ; intros; apply Hlow; lia|done].
  simpl. eexists. split; [reflexivity|]. simpl. split_and!; try done.
  intros s. repeat case_decide; by subst.
Qed.

(** With [mutex] free, no group in [FOOD_REQUEST] and the chef in state
    [FOODREADY], [waitForClientOrChef] returns the request
    [{FOODREADY, foodGroup}] and gives [waiterRequestPossible] one unit.
    It writes nothing to the shared region: the chef's state is still
    [FOODREADY], and the next call returns the same request again. *)
Theorem waitForClientOrChef_food_ready (turns turns' : nat) (w : world) :
  semval w mutex ≠ 0%nat →
  no_order w (seqZ 0 MAXGROUPS) →
  chefStat (st (fSt w)) = FOODREADY →
  let req := mkRequest FOODREADY (foodGroup (fSt w)) in
  ∃ w', exec (waitForClientOrChef (S turns)) w = Done (Some req) w'
    ∧ fSt w' = fSt w
    ∧ groupRecord w' = groupRecord w
    ∧ (∀ s, semval w' s = if decide (s = waiterRequestPossible)
                          then S (semval w s) else semval w s)
    ∧ ∃ w'', exec (waitForClientOrChef (S turns')) w' = Done (Some req) w''.
Proof.
  assert (∀ t w, semval w mutex ≠ 0%nat → no_order w (seqZ 0 MAXGROUPS) →
            chefStat (st (fSt w)) = FOODREADY →
            ∃ w', exec (waitForClientOrChef (S t)) w
                  = Done (Some (mkRequest FOODREADY (foodGroup (fSt w)))) w'
              ∧ fSt w' = fSt w
              ∧ groupRecord w' = groupRecord w
              ∧ ∀ s, semval w' s = if decide (s = waiterRequestPossible)
                                   then S (semval w s) else semval w s) as Hone.
  { clear. intros t w Hm Hno Hc.
    destruct (semval w mutex) as [|v] eqn:Hv; [done|].
    unfold waitForClientOrChef. rewrite exec_bind.
    cbn [waitForClientOrChef_loop]. rewrite exec_bind.
    unfold waitForClientOrChef_turn. rewrite exec_bind. simpl. rewrite Hv.
    rewrite exec_bind, scanFoodRequest_none by done.
    simpl. rewrite decide_True by done. simpl.
    eexists. split; [reflexivity|]. simpl. split_and!; try done.
    intros s. repeat case_decide; by subst. }
  intros Hm Hno Hc req.
  destruct (Hone turns w) as (w' & He & Hf & Hr & Hs); [done..|].
  exists w'. split_and!; try done.
  destruct (Hone turns' w') as (w'' & He' & _).
  - rewrite Hs. by rewrite decide_False.
  - unfold no_order in *. by rewrite Hf.
  - by rewrite Hf.
  - exists w''. by rewrite He', Hf.
Qed.

Lemma sh_foodArrived_table t :
  0 ≤ t < NUMTABLES → sh_foodArrived t = mret (foodArrived t).
Proof. intros Ht. unfold sh_foodArrived. by rewrite decide_True. Qed.

(** The waiter's [takeFoodToTable n] followed by the group's [waitFood n]:
    both read [assignedTable[n]], so the unit the waiter gives to
    [foodArrived] is the one the group takes.  With [mutex] free and the
    entry read a table number, the group does not block and ends in state
    [EAT]; every semaphore is back at its value. *)
Theorem takeFoodToTable_wakes_waitFood (n t : Z) (w : world) :
  semval w mutex ≠ 0%nat →
  idx (assignedTable (fSt w)) n = Some t →
  0 ≤ t < NUMTABLES →
  0 ≤ n < Z.of_nat (length (groupStat (st (fSt w)))) →
  ∃ w', exec (takeFoodToTable n;; waitFood n) w = Done tt w'
    ∧ groupStat (st (fSt w')) = <[Z.to_nat n := EAT]> (groupStat (st (fSt w)))
    ∧ waiterStat (st (fSt w')) = TAKE_TO_TABLE
    ∧ assignedTable (fSt w') = assignedTable (fSt w)
    ∧ ∀ s, semval w' s = semval w s.
Proof.
  intros Hm Ht Htab Hn.
  destruct (semval w mutex) as [|v] eqn:Hv; [done|].
  simpl. rewrite Hv. simpl. rewrite Ht. simpl.
  rewrite sh_foodArrived_table by done. simpl.
  rewrite (upd_Some _ n) by done. simpl. rewrite Ht. simpl.
  rewrite sh_foodArrived_table by done. simpl.
  rewrite decide_True by done. simpl.
  rewrite (upd_Some _ n) by (by rewrite length_insert). simpl.
  eexists. split; [reflexivity|]. simpl. split_and!; try done.
  - by rewrite list_insert_insert_eq.
  - intros s. repeat case_decide; by subst.
Qed.

(** With [mutex] free, [assignedTable[id]] a table number and no unit in
    [foodArrived[assignedTable[id]]], [waitFood id] stops in front of that
    semaphore: the group is in state [WAIT_FOR_FOOD] and [mutex] is free
    again. *)
Theorem waitFood_blocks_until_food (id t : Z) (w : world) :
  semval w mutex ≠ 0%nat →
  idx (assignedTable (fSt w)) id = Some t →
  0 ≤ t < NUMTABLES →
  semval w (foodArrived t) = 0%nat →
  0 ≤ id < Z.of_nat (length (groupStat (st (fSt w)))) →
  ∃ p w', exec (waitFood id) w = Blocked (foodArrived t) p w'
    ∧ fSt w' = set_st (set_groupStat
                         (<[Z.to_nat id := WAIT_FOR_FOOD]>
                            (groupStat (st (fSt w))))) (fSt w)
    ∧ ∀ s, semval w' s = semval w s.
Proof.
  intros Hm Ht Htab Hf Hid.
  destruct (semval w mutex) as [|v] eqn:Hv; [done|].
  unfold waitFood. simpl. rewrite Hv. simpl.
  rewrite (upd_Some _ id) by done. simpl. rewrite Ht. simpl.
  rewrite sh_foodArrived_table by done. simpl.
  rewrite Hf.
  eexists _, _. split; [reflexivity|]. simpl. split_and!; try done.
  intros s. repeat case_decide; by subst.
Qed.

(** With [mutex] free, [informChef n] writes the group into
    [waiterRequest], gives [waitOrder] one unit and takes one from
    [orderReceived]: without a unit there it stops in front of
    [orderReceived], after the signal and with [mutex] free again. *)
Theorem informChef_waits_for_chef (n : Z) (w : world) :
  semval w mutex ≠ 0%nat →
  semval w orderReceived = 0%nat →
  ∃ p w', exec (informChef n) w = Blocked orderReceived p w'
    ∧ reqGroup (waiterRequest (fSt w')) = n
    ∧ waiterStat (st (fSt w')) = INFORM_CHEF
    ∧ ∀ s, semval w' s = if decide (s = waitOrder)
                         then S (semval w s) else semval w s.
Proof.
  intros Hm Ho.
  destruct (semval w mutex) as [|v] eqn:Hv; [done|].
  unfold informChef. simpl. rewrite Hv. simpl. rewrite Ho.
  eexists _, _. split; [reflexivity|]. simpl. split_and!; try done.
  intros s. repeat case_decide; by subst.
Qed.

End orders.

(** ** More on the groups *)

Section groups.
Context {K : ProbConst}.

Lemma checkIn_scan_none id w tables :
  Forall (λ j, ∃ v, idx (assignedTable (fSt w)) j = Some v ∧ v ≠ -1) tables →
  exec (checkIn_scan id tables) w = Done false w.
Proof.
  induction 1 as [|j l (v & Hj & Hv) _ IH]; simpl; [done|].
  rewrite Hj. by rewrite decide_False.
Qed.

(** With [mutex] free and no vacant table, [checkInAtReception id] returns
    all the same, without waiting on any semaphore but [mutex]: the table
    request is posted, [groupsWaiting] is one more, the group is in state
    [WAITING] and [assignedTable] is as before. *)
Theorem checkInAtReception_no_table (id : Z) (w : world) :
  semval w mutex ≠ 0%nat →
  groupsWaiting (fSt w) ≠ INT_MAX →
  0 ≤ id < Z.of_nat (length (groupStat (st (fSt w)))) →
  (∀ j, 0 ≤ j < NUMTABLES →
        ∃ v, idx (assignedTable (fSt w)) j = Some v ∧ v ≠ -1) →
  ∃ w', exec (checkInAtReception id) w
        = Done (bool_decide (groupsWaiting (fSt w) = 0)) w'
    ∧ assignedTable (fSt w') = assignedTable (fSt w)
    ∧ groupStat (st (fSt w'))
      = <[Z.to_nat id := WAITING]> (groupStat (st (fSt w)))
    ∧ receptionistRequest (fSt w') = mkRequest TABLEREQ id
    ∧ groupsWaiting (fSt w') = groupsWaiting (fSt w) + 1
    ∧ (∀ s, semval w' s = semval w s)
    ∧ groupRecord w' = groupRecord w.
Proof.
  intros Hm Hgw Hid Hocc.
  destruct (semval w mutex) as [|v] eqn:Hv; [done|].
  unfold checkInAtReception. simpl. rewrite Hv. simpl. unfold incr. simpl.
  rewrite decide_False by done. simpl.
  rewrite (upd_Some _ id) by done. simpl.
  rewrite exec_bind, checkIn_scan_none.
  - simpl. rewrite upd_Some by (by rewrite !length_insert). simpl.
    eexists. split; [reflexivity|]. simpl. split_and!; try done.
    + by rewrite list_insert_insert_eq.
    + intros s. repeat case_decide; by subst.
  - simpl. apply Forall_seqZ. intros j Hj. apply Hocc. lia.
Qed.

(** With [mutex] free, [checkOutAtReception id] posts the bill request,
    sets the group to [CHECKOUT] and releases [mutex]; then it takes one
    unit of [tableDone[id]].  Without a unit it stops there; with one it
    goes on to state [LEAVING] and returns. *)
Theorem checkOutAtReception_needs_ack (id : Z) (w : world) :
  semval w mutex ≠ 0%nat →
  0 ≤ id < Z.of_nat (length (groupStat (st (fSt w)))) →
  match semval w (tableDone id) with
  | O =>
      ∃ p w', exec (checkOutAtReception id) w = Blocked (tableDone id) p w'
        ∧ groupStat (st (fSt w'))
          = <[Z.to_nat id := CHECKOUT]> (groupStat (st (fSt w)))
        ∧ receptionistRequest (fSt w') = mkRequest BILLREQ id
        ∧ ∀ s, semval w' s = semval w s
  | S a =>
      ∃ w', exec (checkOutAtReception id) w = Done tt w'
        ∧ groupStat (st (fSt w'))
          = <[Z.to_nat id := LEAVING]> (groupStat (st (fSt w)))
        ∧ receptionistRequest (fSt w') = mkRequest BILLREQ id
        ∧ ∀ s, semval w' s = if decide (s = tableDone id)
                             then a else semval w s
  end.
Proof.
  intros Hm Hid.
  destruct (semval w mutex) as [|v] eqn:Hv; [done|].
  destruct (semval w (tableDone id)) as [|a] eqn:Ha;
    unfold checkOutAtReception; simpl; rewrite Hv; simpl;
    rewrite (upd_Some _ id) by done; simpl; rewrite Ha.
  - eexists _, _. split; [reflexivity|]. simpl. split_and!; try done.
    intros s. repeat case_decide; by subst.
  - simpl. rewrite upd_Some by (by rewrite length_insert). simpl.
    eexists. split; [reflexivity|]. simpl. split_and!; try done.
    + by rewrite list_insert_insert_eq.
    + intros s. repeat case_decide; by subst.
Qed.

End groups.

(** ** The mutex is given back *)

Section balance.
Context {K : ProbConst}.

Lemma balance_bind {A B} d d1 d2 (m : prog A) (f : A → prog B) :
  balance d d1 m → (∀ a, balance d1 d2 (f a)) → balance d d2 (m ≫= f).
Proof.
  revert d. induction m as [a| |e k IH]; intros d; simpl.
  - intros ->. auto.
  - done.
  - intros [He Hk] Hf. split; [done|]. intros z. by apply IH.
Qed.

Lemma balance_no_mutex {A} d (p : prog A) :
  0 ≤ d → all_acts (λ e, mutex_delta e = 0) p → balance d d p.
Proof.
  intros Hd. induction p as [a| |e k IH]; simpl; [done..|].
  intros [-> Hk]. rewrite Z.add_0_r. split; [done|]. intros z. apply IH, Hk.
Qed.

Lemma perform_mutex e w z w' :
  perform e w = Ok z w' →
  Z.of_nat (semval w' mutex) + mutex_delta e = Z.of_nat (semval w mutex).
Proof.
  destruct e as [s|s|l|l v|]; simpl; intros Hp.
  - destruct (semval w s) as [|a] eqn:Hs; [done|]. injection Hp as <- <-.
    simpl. destruct s; simpl; rewrite ?Hs; lia.
  - injection Hp as <- <-. simpl. destruct s; simpl; lia.
  - destruct (read l w); simplify_eq. lia.
  - destruct (write l v w) as [w1|] eqn:Hw; [|done]. injection Hp as <- <-.
    destruct l; simpl in Hw; simplify_option_eq; simpl; lia.
  - simplify_eq. lia.
Qed.

Lemma exec_balance {A} d d' (p : prog A) w a w' :
  balance d d' p → exec p w = Done a w' →
  Z.of_nat (semval w' mutex) + d' = Z.of_nat (semval w mutex) + d.
Proof.
  revert d w. induction p as [b| |e k IH]; intros d w; simpl.
  - intros -> [= _ ->]. done.
  - done.
  - intros [He Hk] Hx. destruct (perform e w) as [z w1| |] eqn:Hp.
    + apply perform_mutex in Hp. rewrite (IH _ _ _ (Hk z) Hx). lia.
    + by destruct e.
    + done.
Qed.

(** Straight-line code: follow the actions one by one. *)
Ltac follow_mutex :=
  simpl;
  repeat first [split; [lia|intros ?]|progress unfold sh_foodArrived
               |case_decide; simpl];
  first [lia|done].

Lemma decideNextGroup_balance d : 0 ≤ d → balance d d decideNextGroup.
Proof.
  intros Hd. unfold decideNextGroup.
  apply (balance_bind d (d + 1)); [follow_mutex|intros _].
  apply (balance_bind (d + 1) (d + 1)); [|intros g].
  { apply balance_no_mutex; [lia|]. by apply firstWaiting_acts. }
  apply (balance_bind (d + 1) (d + 1)); [case_decide; follow_mutex|intros _].
  follow_mutex.
Qed.

Lemma checkInAtReception_balance id : balance 0 0 (checkInAtReception id).
Proof.
  unfold checkInAtReception.
  apply (balance_bind 0 1); [follow_mutex|intros _].
  apply (balance_bind 1 1); [follow_mutex|intros g].
  apply (balance_bind 1 1); [|intros _].
  { simpl. split; [lia|]. intros v. case_decide; follow_mutex. }
  do 4 (apply (balance_bind 1 1); [follow_mutex|intros _]).
  apply (balance_bind 1 1); [|intros b].
  { apply balance_no_mutex; [lia|]. by apply checkIn_scan_acts. }
  apply (balance_bind 1 1); [destruct b; follow_mutex|intros _].
  follow_mutex.
Qed.

Lemma provideTableOrWaitingRoom_balance n :
  balance 0 0 (provideTableOrWaitingRoom n).
Proof.
  unfold provideTableOrWaitingRoom.
  apply (balance_bind 0 1); [follow_mutex|intros _].
  apply (balance_bind 1 1); [|intros t].
  { apply balance_no_mutex; [lia|]. by apply decideTableOrWait_acts. }
  apply (balance_bind 1 1); [case_decide; follow_mutex|intros _].
  follow_mutex.
Qed.

Lemma receivePayment_balance n : balance 0 0 (receivePayment n).
Proof.
  unfold receivePayment.
  apply (balance_bind 0 1); [follow_mutex|intros _].
  apply (balance_bind 1 1); [follow_mutex|intros _].
  apply (balance_bind 1 1); [follow_mutex|intros t].
  do 2 (apply (balance_bind 1 1); [follow_mutex|intros _]).
  apply (balance_bind 1 1); [by apply decideNextGroup_balance|intros g].
  apply (balance_bind 1 1); [case_decide; follow_mutex|intros _].
  follow_mutex.
Qed.

Lemma waitForClientOrChef_balance turns :
  balance 0 0 (waitForClientOrChef turns).
Proof.
  apply (balance_bind 0 0); [|intros [req|]; follow_mutex].
  induction turns as [|turns IH]; [done|].
  cbn [waitForClientOrChef_loop].
  apply (balance_bind 0 0); [|intros [req|]; [done|]].
  - unfold waitForClientOrChef_turn.
    apply (balance_bind 0 1); [follow_mutex|intros _].
    apply (balance_bind 1 1); [|intros found].
    { apply balance_no_mutex; [lia|]. by apply scanFoodRequest_acts. }
    apply (balance_bind 1 1); [|intros found'; follow_mutex].
    destruct found; [done|]. simpl. split; [lia|]. intros c.
    case_decide; follow_mutex.
  - simpl. split; [lia|]. intros _. apply IH.
Qed.

Lemma code_balance o : balance 0 0 (code o).
Proof.
  destruct o as [id|id|id|id| |n|n|turns|n|n]; try follow_mutex.
  - apply (balance_bind 0 0); [apply checkInAtReception_balance|done].
  - apply provideTableOrWaitingRoom_balance.
  - apply receivePayment_balance.
  - apply (balance_bind 0 0); [apply waitForClientOrChef_balance|done].
Qed.

(** Whatever operation returns has given [mutex] back: the semaphore
    holds the value it held when the operation began. *)
Theorem operation_returns_mutex (o : operation) (w w' : world) :
  exec (code o) w = Done tt w' → semval w' mutex = semval w mutex.
Proof.
  intros Hx. pose proof (exec_balance 0 0 _ _ _ _ (code_balance o) Hx). lia.
Qed.

End balance.

(** ** The mutex under interleaving *)

Section interleaving.
Context {K : ProbConst}.

Lemma total_insert (ds : list Z) (i : nat) (d x : Z) :
  ds !! i = Some d → total (<[i := x]> ds) = total ds - d + x.
Proof.
  revert i. induction ds as [|y ds IH]; intros [|i] Hi; simplify_eq/=.
  - unfold total. simpl. lia.
  - unfold total in *. simpl. rewrite (IH i) by done. lia.
Qed.

Lemma total_nonneg (ds : list Z) : Forall (λ x, 0 ≤ x) ds → 0 ≤ total ds.
Proof.
  induction 1 as [|d ds Hd _ IH]; [done|]. unfold total in *. simpl. lia.
Qed.

Lemma total_bound (ds : list Z) (i : nat) (d : Z) :
  Forall (λ x, 0 ≤ x) ds → ds !! i = Some d → 0 ≤ d ≤ total ds.
Proof.
  intros Hds. revert i.
  induction Hds as [|y ds Hy Hds IH]; intros [|i] Hi; simplify_eq/=.
  - apply total_nonneg in Hds. unfold total in *. simpl. lia.
  - specialize (IH i Hi). unfold total in *. simpl. lia.
Qed.

Lemma pool_inv_nonneg ds ps : pool_inv ds ps → Forall (λ x, 0 ≤ x) ds.
Proof. induction 1 as [|d p ds ps [Hd _] _ IH]; by constructor. Qed.

(** One step keeps the invariant, and what the stepping process gains the
    semaphore loses. *)
Lemma step_pool_inv ds ps w ps' w' :
  pool_inv ds ps → step (ps, w) (ps', w') →
  ∃ i d e k z,
    ds !! i = Some d ∧ ps !! i = Some (Vis e k) ∧ ps' = <[i := k z]> ps
    ∧ perform e w = Ok z w'
    ∧ pool_inv (<[i := d + mutex_delta e]> ds) ps'
    ∧ Z.of_nat (semval w' mutex) + total (<[i := d + mutex_delta e]> ds)
      = Z.of_nat (semval w mutex) + total ds.
Proof.
  intros Hinv Hs. inversion Hs as [ps0 i e k z w0 w1 Hi Hp]; subst.
  destruct (Forall2_lookup_r _ _ _ _ _ Hinv Hi) as (d & Hd & Hd0 & He & Hk).
  exists i, d, e, k, z. split_and!; try done.
  - apply Forall2_insert; [done|]. split; [done|]. apply Hk.
  - rewrite (total_insert _ _ d) by done.
    apply perform_mutex in Hp. lia.
Qed.

Lemma pool_inv_start (ops : list operation) :
  pool_inv (replicate (length ops) 0) (code <$> ops).
Proof.
  induction ops as [|o ops IH]; constructor; [|done].
  split; [done|]. apply code_balance.
Qed.

Lemma total_replicate_0 n : total (replicate n 0) = 0.
Proof. induction n as [|n IH]; [done|]. unfold total in *. simpl. lia. Qed.

Lemma steps_pool_inv ds ps w ps' w' :
  pool_inv ds ps → rtc step (ps, w) (ps', w') →
  ∃ ds', pool_inv ds' ps'
    ∧ Z.of_nat (semval w' mutex) + total ds'
      = Z.of_nat (semval w mutex) + total ds.
Proof.
  intros Hinv Hrtc.
  remember (ps, w) as x eqn:Hx. remember (ps', w') as y eqn:Hy.
  revert ds ps w Hx Hinv.
  induction Hrtc as [x|x [ps1 w1] y Hs _ IH]; intros ds ps w Hx Hinv.
  - simplify_eq. by exists ds.
  - rewrite Hx in Hs.
    destruct (step_pool_inv _ _ _ _ _ Hinv Hs)
      as (i & d & e & k & z & _ & _ & _ & _ & Hinv1 & Heq).
    destruct (IH Hy _ _ _ eq_refl Hinv1) as (ds' & Hinv' & Heq').
    exists ds'. split; [done|]. lia.
Qed.

(** However the operations of the three actors are interleaved, [mutex]
    never holds more than it held at the start: starting free, with one
    unit, it stays a binary semaphore. *)
Theorem mutex_never_exceeds_start (ops : list operation) ps' w w' :
  rtc step (code <$> ops, w) (ps', w') →
  (semval w' mutex ≤ semval w mutex)%nat.
Proof.
  intros Hrtc.
  destruct (steps_pool_inv _ _ _ _ _ (pool_inv_start ops) Hrtc)
    as (ds' & Hinv & Heq).
  rewrite total_replicate_0 in Heq.
  apply pool_inv_nonneg, total_nonneg in Hinv. lia.
Qed.

Lemma receivePayment_needs_two n : needs_two 0 (receivePayment n).
Proof.
  simpl. right. intros _. right. intros _. right. intros t.
  right. intros _. right. intros _. left. lia.
Qed.

Lemma steps_needs_two ds ps w ps' w' i :
  pool_inv ds ps →
  Z.of_nat (semval w mutex) + total ds ≤ 1 →
  (∃ d p, ds !! i = Some d ∧ ps !! i = Some p ∧ needs_two d p) →
  rtc step (ps, w) (ps', w') →
  ∃ d p, ps' !! i = Some p ∧ needs_two d p.
Proof.
  intros Hinv Hone Hi Hrtc.
  remember (ps, w) as x eqn:Hx. remember (ps', w') as y eqn:Hy.
  revert ds ps w Hx Hinv Hone Hi.
  induction Hrtc as [x|x [ps1 w1] y Hs _ IH]; intros ds ps w Hx Hinv Hone Hi.
  - simplify_eq. destruct Hi as (d & p & _ & Hp & Hn). by exists d, p.
  - rewrite Hx in Hs.
    destruct (step_pool_inv _ _ _ _ _ Hinv Hs)
      as (j & dj & e & k & z & Hdj & Hpj & -> & _ & Hinv1 & Heq).
    apply (IH Hy _ _ _ eq_refl Hinv1); [lia|].
    destruct Hi as (d & p & Hd & Hp & Hn).
    destruct (decide (j = i)) as [->|Hji].
    + simplify_eq. exists (d + mutex_delta e), (k z).
      pose proof (lookup_lt_Some _ _ _ Hd). pose proof (lookup_lt_Some _ _ _ Hp).
      split_and!.
      * by apply list_lookup_insert_eq.
      * by apply list_lookup_insert_eq.
      * destruct Hn as [Htwo|Hn]; [|apply Hn].
        pose proof (total_bound _ i (d + mutex_delta e)
                      (pool_inv_nonneg _ _ Hinv1)) as Hb.
        rewrite list_lookup_insert_eq in Hb by done.
        specialize (Hb eq_refl). lia.
    + exists d, p. unfold pool in *. split; [|split; [|done]].
      * rewrite list_lookup_insert_ne; done.
      * rewrite list_lookup_insert_ne; done.
Qed.

(** However the operations are interleaved, from a [mutex] with at most
    one unit, a [receivePayment] never returns: it would have to hold two
    units of [mutex], its own and the one [decideNextGroup] takes. *)
Theorem receivePayment_never_returns (ops : list operation) (i : nat) (n : Z)
    ps' w w' :
  (semval w mutex ≤ 1)%nat →
  ops !! i = Some (ReceivePayment n) →
  rtc step (code <$> ops, w) (ps', w') →
  ps' !! i ≠ Some (Ret tt).
Proof.
  intros Hm Hi Hrtc Hret.
  assert (∃ d p, ps' !! i = Some p ∧ needs_two d p) as (d & p & Hp & Hn).
  { eapply steps_needs_two; [apply (pool_inv_start ops)| | |exact Hrtc].
    - rewrite total_replicate_0. lia.
    - exists 0, (receivePayment n). split; [|split].
      + apply lookup_replicate_2. by eapply lookup_lt_Some.
      + unfold pool. by rewrite list_lookup_fmap, Hi.
      + apply receivePayment_needs_two. }
  by simplify_eq.
Qed.

End interleaving.

(** ** An order on its way to the chef *)

Section lives.
Context {K : ProbConst}.

(** A group orders and the waiter takes a turn.  When no lower group is
    in [FOOD_REQUEST] and the chef has not acknowledged anything, the
    waiter finds the order, passes it on and stops in front of
    [orderReceived]: the group is in [WAIT_FOR_FOOD], [waiterRequest]
    names it, and [waitOrder] and [waiterRequestPossible] have one unit
    more each. *)
Theorem order_reaches_chef (turns : nat) (id : Z) (w : world) :
  semval w mutex ≠ 0%nat →
  semval w orderReceived = 0%nat →
  0 ≤ id < MAXGROUPS →
  0 ≤ id < Z.of_nat (length (groupStat (st (fSt w)))) →
  (∀ j, 0 ≤ j < id →
        ∃ s, idx (groupStat (st (fSt w))) j = Some s ∧ s ≠ FOOD_REQUEST) →
  ∃ p w', exec (orderFood id;; waiter_turn (S turns)) w
          = Blocked orderReceived p w'
    ∧ groupStat (st (fSt w'))
      = <[Z.to_nat id := WAIT_FOR_FOOD]> (groupStat (st (fSt w)))
    ∧ waiterRequest (fSt w') = mkRequest FOODREQ id
    ∧ waiterStat (st (fSt w')) = INFORM_CHEF
    ∧ ∀ s, semval w' s = if decide (s = waitOrder ∨ s = waiterRequestPossible)
                         then S (semval w s) else semval w s.
Proof.
  intros Hm Ho Hid Hr Hlow.
  destruct (semval w mutex) as [|v] eqn:Hv; [done|].
  assert (∃ w1, exec (orderFood id) w = Done tt w1
            ∧ fSt w1 = set_waiterRequest (mkRequest FOODREQ id)
                         (set_st (set_groupStat
                            (<[Z.to_nat id := FOOD_REQUEST]>
                               (groupStat (st (fSt w))))) (fSt w))
            ∧ semval w1 = (λ s, if decide (s = mutex) then S v
                                else if decide (s = mutex) then v
                                     else semval w s))
    as (w1 & Hx & Hf1 & Hs1).
  { unfold orderFood. simpl. rewrite Hv. simpl.
    rewrite (upd_Some _ id) by done. simpl. by eexists. }
  rewrite exec_bind, Hx.
  unfold waiter_turn, waitForClientOrChef. rewrite !exec_bind.
  cbn [waitForClientOrChef_loop]. rewrite exec_bind.
  unfold waitForClientOrChef_turn. rewrite exec_bind.
  simpl. rewrite Hs1. simpl.
  rewrite exec_bind, (seqZ_split id) by done.
  rewrite scanFoodRequest_found; simpl; rewrite ?Hf1; simpl.
  - unfold waiter_serve. simpl. rewrite decide_True by done.
    rewrite exec_bind. unfold informChef. simpl. rewrite Hs1. simpl. rewrite Ho.
    eexists _, _. split; [reflexivity|]. simpl. rewrite Hf1, Hs1. simpl.
    split_and!; try done.
    + by rewrite list_insert_insert_eq.
    + intros []; simpl; by rewrite ?Hv.
  - apply Forall_seqZ. intros j Hj. simpl.
    destruct (Hlow j) as (x & Hj' & Hne); [lia|]. exists x. split; [|done].
    rewrite <- Hj'. by eapply idx_upd_ne; [apply upd_Some|lia].
  - simpl. by eapply idx_upd_eq, upd_Some.
Qed.

End lives.

(** ** The discipline, where it is kept *)

Section kept.
Context {K : ProbConst}.

Lemma disciplined_no_mutex {A B} (m : prog A) (f : A → prog B) :
  all_acts (λ e, mutex_delta e = 0) m →
  (∀ a, disciplined true (f a)) →
  disciplined true (m ≫= f).
Proof.
  intros Hm Hf. induction m as [a| |e k IH]; simpl; [apply Hf|done|].
  destruct Hm as [He Hk]. split; [done|]. intros z.
  replace (holds_after true e) with true; [by apply IH|].
  by destruct e as [[]|[]| | |].
Qed.

Lemma waitForGroup_disciplined : disciplined false waitForGroup.
Proof. simpl. naive_solver. Qed.

Lemma provideTableOrWaitingRoom_disciplined n :
  disciplined false (provideTableOrWaitingRoom n).
Proof.
  simpl. split; [done|]. intros _.
  apply disciplined_no_mutex; [by apply decideTableOrWait_acts|].
  intros t. case_decide; simpl; naive_solver.
Qed.

(** Six operations make every access to the shared region, [saveState]
    included, between their [semDown] and their [semUp] of [mutex]:
    [checkInAtReception], [orderFood], [checkOutAtReception],
    [waitForGroup], [provideTableOrWaitingRoom] and [informChef]. *)
Theorem mutex_discipline_kept (id n : Z) :
  disciplined false (checkInAtReception id)
  ∧ disciplined false (orderFood id)
  ∧ disciplined false (checkOutAtReception id)
  ∧ disciplined false waitForGroup
  ∧ disciplined false (provideTableOrWaitingRoom n)
  ∧ disciplined false (informChef n).
Proof.
  split_and!.
  - apply checkInAtReception_disciplined.
  - apply orderFood_disciplined.
  - apply checkOutAtReception_disciplined.
  - apply waitForGroup_disciplined.
  - apply provideTableOrWaitingRoom_disciplined.
  - apply informChef_disciplined.
Qed.

End kept.

(** ** More runs on sample worlds *)

(** Group 0 posts its bill and releases [mutex], with the receptionist
    about to receive the payment: [tableDone[0]] is still at zero. *)
Lemma tableDone_never_signaled_witness :
  let K := consts 3 1 in
  let ops := [CheckOutAtReception 0; ReceivePayment 0] in
  ∃ ps' w', rtc step (code <$> ops, oneSeated) (ps', w')
    ∧ (semval w' (tableDone 0) ≤ semval oneSeated (tableDone 0))%nat.
Proof.
  intros K ops.
  assert (∃ ps' w', rtc step (code <$> ops, oneSeated) (ps', w'))
    as (ps' & w' & Hrtc).
  { eexists _, _.
    do 6 (eapply rtc_l; [eapply (step_act _ 0%nat); reflexivity|]).
    apply rtc_refl. }
  exists ps', w'. split; [exact Hrtc|].
  exact (tableDone_never_signaled (K:=K) ops ps' oneSeated w' 0 Hrtc).
Defined.


(** Table 0 holds group 1 (an entry equal to 1): the answer is table 1. *)
Lemma decideTableOrWait_lowest_vacant_witness :
  let K := consts 3 3 in
  assignedTable (fSt firstTaken) = [1; -1; -1]
  ∧ exec (decideTableOrWait 2) firstTaken = Done 1 firstTaken.
Proof.
  intros K. split; [reflexivity|].
  apply (decideTableOrWait_lowest_vacant (K:=K) 2 1 firstTaken);
    try by vm_compute.
  intros j Hj. assert (j = 0) as -> by lia. by eexists.
Defined.

Lemma decideTableOrWait_no_vacant_witness :
  let K := consts 3 1 in
  assignedTable (fSt oneSeated) = [0]
  ∧ exec (decideTableOrWait 1) oneSeated = Done (-1) oneSeated.
Proof.
  intros K. split; [reflexivity|].
  apply (decideTableOrWait_no_vacant (K:=K) 1 oneSeated).
  intros j Hj. assert (j = 0) as -> by (subst K; simpl in Hj; lia). by eexists.
Defined.

Lemma provideTableOrWaitingRoom_signals_witness :
  let K := consts 3 3 in
  let w := firstTaken in
  ∃ w', exec (provideTableOrWaitingRoom 2) w = Done tt w'
    ∧ fSt w' = set_st (set_receptionistStat ASSIGNTABLE) (fSt w)
    ∧ groupRecord w' = <[Z.to_nat 2 := ATTABLE]> (groupRecord w)
    ∧ ∀ s, semval w' s = if decide (s = waitForTable 2)
                         then S (semval w s) else semval w s.
Proof.
  intros K w.
  apply (provideTableOrWaitingRoom_signals (K:=K) 2 1 w); try by vm_compute.
  intros j Hj. assert (j = 0) as -> by lia. by eexists.
Defined.

Lemma provideTableOrWaitingRoom_records_wait_witness :
  let K := consts 3 1 in
  let w := oneSeated in
  ∃ w', exec (provideTableOrWaitingRoom 1) w = Done tt w'
    ∧ fSt w' = set_st (set_receptionistStat WAIT) (fSt w)
    ∧ groupRecord w' = <[Z.to_nat 1 := WAIT]> (groupRecord w)
    ∧ ∀ s, semval w' s = semval w s.
Proof.
  intros K w.
  apply (provideTableOrWaitingRoom_records_wait (K:=K) 1 w); try by vm_compute.
  intros j Hj. assert (j = 0) as -> by (subst K; simpl in Hj; lia). by eexists.
Defined.

Lemma decideNextGroup_lowest_waiting_witness :
  let K := consts 3 1 in
  let w := oneTable in
  groupRecord w = [WAIT; WAIT; WAIT]
  ∧ ∃ w', exec decideNextGroup w = Done 0 w'
    ∧ fSt w' = set_st (set_groupStat
                         (<[Z.to_nat 0 := AT_TABLE]> (groupStat (st (fSt w)))))
                      (fSt w)
    ∧ groupRecord w' = <[Z.to_nat 0 := ATTABLE]> (groupRecord w)
    ∧ ∀ s, semval w' s = semval w s.
Proof.
  intros K w. split; [reflexivity|].
  apply (decideNextGroup_lowest_waiting (K:=K) 0 w); try by vm_compute.
  intros j Hj. lia.
Defined.

Lemma decideNextGroup_nobody_waiting_witness :
  let K := consts 3 1 in
  let w := start 3 1 in
  ∃ w', exec decideNextGroup w = Done (-1) w'
    ∧ fSt w' = fSt w
    ∧ groupRecord w' = groupRecord w
    ∧ ∀ s, semval w' s = semval w s.
Proof.
  intros K w.
  apply (decideNextGroup_nobody_waiting (K:=K) w); [by vm_compute|].
  intros j Hj. subst K. simpl in Hj.
  assert (j = 0 ∨ j = 1 ∨ j = 2) as [-> | [-> | ->]] by lia; by eexists.
Defined.

Lemma waitForClientOrChef_lowest_order_witness :
  let K := consts 3 1 in
  let w := oneOrdered in
  groupStat (st (fSt w)) = [0; FOOD_REQUEST; 0]
  ∧ ∃ w', exec (waitForClientOrChef 1) w = Done (Some (mkRequest FOODREQ 1)) w'
    ∧ fSt w' = set_st (set_groupStat
                         (<[Z.to_nat 1 := WAIT_FOR_FOOD]>
                            (groupStat (st (fSt w))))) (fSt w)
    ∧ groupRecord w' = groupRecord w
    ∧ ∀ s, semval w' s = if decide (s = waiterRequestPossible)
                         then S (semval w s) else semval w s.
Proof.
  intros K w. split; [reflexivity|].
  apply (waitForClientOrChef_lowest_order (K:=K) 0 1 w); try by vm_compute.
  intros j Hj. assert (j = 0) as -> by lia. by eexists.
Defined.

Lemma waitForClientOrChef_food_ready_witness :
  let K := consts 3 1 in
  let w := foodReady in
  let req := mkRequest FOODREADY 2 in
  ∃ w', exec (waitForClientOrChef 1) w = Done (Some req) w'
    ∧ fSt w' = fSt w
    ∧ groupRecord w' = groupRecord w
    ∧ (∀ s, semval w' s = if decide (s = waiterRequestPossible)
                          then S (semval w s) else semval w s)
    ∧ ∃ w'', exec (waitForClientOrChef 1) w' = Done (Some req) w''.
Proof.
  intros K w req.
  apply (waitForClientOrChef_food_ready (K:=K) 0 0 w); try by vm_compute.
  repeat constructor; by eexists.
Defined.

Lemma takeFoodToTable_wakes_waitFood_witness :
  let K := consts 3 1 in
  let w := oneSeated in
  ∃ w', exec (takeFoodToTable 0;; waitFood 0) w = Done tt w'
    ∧ groupStat (st (fSt w')) = <[Z.to_nat 0 := EAT]> (groupStat (st (fSt w)))
    ∧ waiterStat (st (fSt w')) = TAKE_TO_TABLE
    ∧ assignedTable (fSt w') = assignedTable (fSt w)
    ∧ ∀ s, semval w' s = semval w s.
Proof.
  intros K w.
  apply (takeFoodToTable_wakes_waitFood (K:=K) 0 0 w); by vm_compute.
Defined.

(** Group 1 sits at table 0, and [assignedTable[1]] is -1: what
    [waitFood 1] does after its read of that entry is not defined. *)
Lemma waitFood_vacant_entry :
  let K := consts 3 3 in
  idx (assignedTable (fSt firstTaken)) 1 = Some (-1)
  ∧ ∃ w', exec (waitFood 1) firstTaken = Fault w'.
Proof. intros K. split; [reflexivity|]. eexists. by vm_compute. Qed.

Lemma waitFood_blocks_until_food_witness :
  let K := consts 3 1 in
  let w := oneSeated in
  ∃ p w', exec (waitFood 0) w = Blocked (foodArrived 0) p w'
    ∧ fSt w' = set_st (set_groupStat
                         (<[Z.to_nat 0 := WAIT_FOR_FOOD]>
                            (groupStat (st (fSt w))))) (fSt w)
    ∧ ∀ s, semval w' s = semval w s.
Proof.
  intros K w.
  apply (waitFood_blocks_until_food (K:=K) 0 0 w); by vm_compute.
Defined.

Lemma informChef_waits_for_chef_witness :
  let K := consts 3 1 in
  let w := oneOrdered in
  ∃ p w', exec (informChef 1) w = Blocked orderReceived p w'
    ∧ reqGroup (waiterRequest (fSt w')) = 1
    ∧ waiterStat (st (fSt w')) = INFORM_CHEF
    ∧ ∀ s, semval w' s = if decide (s = waitOrder)
                         then S (semval w s) else semval w s.
Proof.
  intros K w. apply (informChef_waits_for_chef (K:=K) 1 w); by vm_compute.
Defined.

Lemma checkInAtReception_no_table_witness :
  let K := consts 3 1 in
  let w := oneSeated in
  ∃ w', exec (checkInAtReception 1) w
        = Done (bool_decide (groupsWaiting (fSt w) = 0)) w'
    ∧ assignedTable (fSt w') = assignedTable (fSt w)
    ∧ groupStat (st (fSt w'))
      = <[Z.to_nat 1 := WAITING]> (groupStat (st (fSt w)))
    ∧ receptionistRequest (fSt w') = mkRequest TABLEREQ 1
    ∧ groupsWaiting (fSt w') = groupsWaiting (fSt w) + 1
    ∧ (∀ s, semval w' s = semval w s)
    ∧ groupRecord w' = groupRecord w.
Proof.
  intros K w.
  apply (checkInAtReception_no_table (K:=K) 1 w); try by vm_compute.
  intros j Hj. assert (j = 0) as -> by (subst K; simpl in Hj; lia). by eexists.
Defined.

Lemma checkOutAtReception_needs_ack_witness :
  let K := consts 3 1 in
  let w := oneSeated in
  ∃ p w', exec (checkOutAtReception 0) w = Blocked (tableDone 0) p w'
    ∧ groupStat (st (fSt w'))
      = <[Z.to_nat 0 := CHECKOUT]> (groupStat (st (fSt w)))
    ∧ receptionistRequest (fSt w') = mkRequest BILLREQ 0
    ∧ ∀ s, semval w' s = semval w s.
Proof.
  intros K w.
  apply (checkOutAtReception_needs_ack (K:=K) 0 w); by vm_compute.
Defined.

Lemma operation_returns_mutex_witness :
  let K := consts 3 1 in
  let w' := world_of (exec (code (OrderFood 1)) (start 3 1)) in
  exec (code (OrderFood 1)) (start 3 1) = Done tt w'
  ∧ semval w' mutex = semval (start 3 1) mutex.
Proof.
  intros K w'. assert (exec (code (OrderFood 1)) (start 3 1) = Done tt w') as Hx.
  { reflexivity. }
  split; [exact Hx|].
  exact (operation_returns_mutex (K:=K) _ _ _ Hx).
Defined.

Lemma order_reaches_chef_witness :
  let K := consts 3 1 in
  let w := start 3 1 in
  ∃ p w', exec (orderFood 1;; waiter_turn 1) w = Blocked orderReceived p w'
    ∧ groupStat (st (fSt w'))
      = <[Z.to_nat 1 := WAIT_FOR_FOOD]> (groupStat (st (fSt w)))
    ∧ waiterRequest (fSt w') = mkRequest FOODREQ 1
    ∧ waiterStat (st (fSt w')) = INFORM_CHEF
    ∧ ∀ s, semval w' s = if decide (s = waitOrder ∨ s = waiterRequestPossible)
                         then S (semval w s) else semval w s.
Proof.
  intros K w.
  apply (order_reaches_chef (K:=K) 0 1 w); try by vm_compute.
  intros j Hj. assert (j = 0) as -> by lia. by eexists.
Defined.

(** Group 0 is about to check out and the receptionist to receive its
    payment; the receptionist takes its first four steps ([mutex], its
    state, the read and the write of [assignedTable]). *)
Lemma mutex_never_exceeds_start_witness :
  let K := consts 3 1 in
  let ops := [CheckOutAtReception 0; ReceivePayment 0] in
  ∃ ps' w', rtc step (code <$> ops, oneSeated) (ps', w')
    ∧ (semval w' mutex ≤ semval oneSeated mutex)%nat.
Proof.
  intros K ops.
  assert (∃ ps' w', rtc step (code <$> ops, oneSeated) (ps', w'))
    as (ps' & w' & Hrtc).
  { eexists _, _.
    do 4 (eapply rtc_l; [eapply (step_act _ 1%nat); reflexivity|]).
    apply rtc_refl. }
  exists ps', w'. split; [exact Hrtc|].
  exact (mutex_never_exceeds_start (K:=K) ops ps' oneSeated w' Hrtc).
Defined.

(** The same interleaving, with the receptionist going as far as it can
    and the group taking no step: the receptionist has not returned. *)
Lemma receivePayment_never_returns_witness :
  let K := consts 3 1 in
  let ops := [CheckOutAtReception 0; ReceivePayment 0] in
  (semval oneSeated mutex ≤ 1)%nat
  ∧ ∃ ps' w', rtc step (code <$> ops, oneSeated) (ps', w')
      ∧ ps' !! 1%nat ≠ Some (Ret tt).
Proof.
  intros K ops. split; [by vm_compute|].
  assert (∃ ps' w', rtc step (code <$> ops, oneSeated) (ps', w'))
    as (ps' & w' & Hrtc).
  { eexists _, _.
    do 5 (eapply rtc_l; [eapply (step_act _ 1%nat); reflexivity|]).
    apply rtc_refl. }
  exists ps', w'. split; [exact Hrtc|].
  apply (receivePayment_never_returns (K:=K) ops 1 0 ps' oneSeated w');
    [by vm_compute|reflexivity|exact Hrtc].
Defined.
